(** * Admission and session lifecycle of the peer signaling WebSocket server

    A shallow embedding of [services/webSocketServer/index] (the compiled
    JavaScript build and the TypeScript source, which differ in one line of
    [_onSocketConnection]) together with the properties of its admission
    state machine: the connection gate, registration, rebind, rejection,
    forced eviction on the reconnect token, and the per-socket [close] and
    [message] listeners.

    JavaScript objects with identity (clients, sockets) live in an explicit
    store and are passed around by reference; every call that leaves the
    class (realm, socket, event emitter, [onClose] callback) is appended to a
    log, so that statements such as "no registry access" or "fires exactly
    once" are statements about that log. *)

From stdpp Require Import gmap strings list fin_maps.
From Stdlib Require Import ZArith.

Set Default Proof Using "Type".

Local Open Scope string_scope.
Local Open Scope list_scope.
Local Open Scope nat_scope.

(** ** Values of the program *)

(** Object identities: a socket handed over by the [ws] server, and a
    [Client] instance.  [===] on objects is equality of these handles. *)
Abbreviation sock := nat.
Abbreviation cref := nat.

(** Modelled from the spec: the members of [enums.MessageType] used here
    (section 6 names the wire values OPEN, ERROR and ID_TAKEN). *)
Inductive MessageType := OPEN | ERROR | ID_TAKEN.

(** Modelled from the spec: the members of [enums.Errors] used here; their
    message texts are not part of this module and stay symbolic. *)
Inductive Errors :=
  | INVALID_WS_PARAMETERS
  | INVALID_KEY
  | CONNECTION_LIMIT_EXCEED.

(** The [msg] field of a frame payload: an [Errors] member or a literal. *)
Inductive msg_field :=
  | MsgOfError (e : Errors)
  | MsgText (s : string).

(** The object literal handed to [JSON.stringify] before [socket.send]:
    [{ type }] or [{ type, payload: { msg } }]. *)
Record frame := Frame {
  f_type : MessageType;
  f_payload : option msg_field
}.

(** Modelled from the spec: the wire values of [enums.MessageType]
    (section 6). *)
Definition MessageType_value (t : MessageType) : string :=
  match t with
  | OPEN => "OPEN"
  | ERROR => "ERROR"
  | ID_TAKEN => "ID_TAKEN"
  end.

(** What [JSON.parse] returns.  An array carries its elements and, once the
    listener has assigned to it, its named properties.  Numbers are never
    inspected by this module. *)
#[local] Unset Elimination Schemes.
Inductive jsval :=
  | JNull
  | JBool (b : bool)
  | JNum (n : Z)
  | JStr (s : string)
  | JArr (elems : list jsval) (props : list (string * jsval))
  | JObj (props : list (string * jsval)).
#[local] Set Elimination Schemes.

(** The object literal of a frame as a value, [text] giving the message
    texts of [enums.Errors]. *)
Definition frame_object (text : Errors → string) (f : frame) : jsval :=
  JObj (("type", JStr (MessageType_value (f_type f))) ::
        match f_payload f with
        | None => []
        | Some (MsgOfError e) => [("payload", JObj [("msg", JStr (text e))])]
        | Some (MsgText s) => [("payload", JObj [("msg", JStr s)])]
        end).

(** Exceptions that can travel through the handlers. *)
Inductive exn :=
  | CloseError (s : sock)        (* thrown by [socket.close()] *)
  | SyntaxError (data : string)  (* thrown by [JSON.parse] *)
  | TypeError (v : jsval)        (* property assignment on a primitive *)
  | DanglingClient (c : cref).   (* a client handle outside the store *)

(** [IAuthParams]: the three query parameters, each possibly undefined. *)
Record IAuthParams := AuthParams {
  a_id : option string;
  a_token : option string;
  a_key : option string
}.

(** [CustomConfig] without the path prefix, which no handler reads. *)
Record CustomConfig := Config {
  key : string;
  concurrent_limit : Z
}.

(** Modelled from the spec: the session entity [models/client] (section 6:
    id, token, nullable transport handle with a getter and a setter). *)
Record Client := MkClient {
  c_id : string;
  c_token : string;
  c_socket : option sock
}.

(** A socket as this module sees it: whether its [close()] raises, and the
    clients captured by the listeners registered with [socket.on]. *)
Record Socket := MkSocket {
  sk_close_raises : bool;
  sk_on_close : list cref;
  sk_on_message : list cref
}.

(** ** The log of outgoing calls *)

Inductive RealmCall :=
  | GetClientById (id : string)
  | ClearMessageQueue (id : string)
  | RemoveClientById (id : string)
  | SetClient (c : cref) (id : string)
  | GetClientsIds.

(** [this.emit(name, ...)]. *)
Inductive Emitted :=
  | EvConnection (c : cref)
  | EvClose (c : cref)
  | EvMessage (c : cref) (m : jsval)
  | EvError (e : exn).

Inductive Effect :=
  | ERealm (r : RealmCall)
  | ESend (s : sock) (f : frame)
  | ESockClose (s : sock)
  | EEmit (ev : Emitted)
  | EOnClose (c : cref).

(** ** The store *)

(** Modelled from the spec: the state of the registry [models/realm]
    (section 6: a mapping from identifier to session, and the per-identifier
    message queues) in [w_realm] and [w_queues]; next to it the heap of
    [Client] objects, a handle being an index into [w_clients], the sockets
    seen so far, and the log. *)
Record World := MkWorld {
  w_clients : list Client;
  w_realm : gmap string cref;
  w_queues : gmap string (list jsval);
  w_sockets : gmap sock Socket;
  w_trace : list Effect
}.

Definition init : World := MkWorld [] ∅ ∅ ∅ [].

Definition with_clients (f : list Client → list Client) (w : World) : World :=
  MkWorld (f (w_clients w)) (w_realm w) (w_queues w) (w_sockets w) (w_trace w).
Definition with_realm (f : gmap string cref → gmap string cref) (w : World) : World :=
  MkWorld (w_clients w) (f (w_realm w)) (w_queues w) (w_sockets w) (w_trace w).
Definition with_queues (f : gmap string (list jsval) → gmap string (list jsval))
    (w : World) : World :=
  MkWorld (w_clients w) (w_realm w) (f (w_queues w)) (w_sockets w) (w_trace w).
Definition with_sockets (f : gmap sock Socket → gmap sock Socket) (w : World) : World :=
  MkWorld (w_clients w) (w_realm w) (w_queues w) (f (w_sockets w)) (w_trace w).
Definition with_trace (f : list Effect → list Effect) (w : World) : World :=
  MkWorld (w_clients w) (w_realm w) (w_queues w) (w_sockets w) (f (w_trace w)).

(** ** Statements with exceptions over the store *)

Inductive Completion (A : Type) :=
  | Normal (a : A)
  | Throw (e : exn).
Arguments Normal {A} a.
Arguments Throw {A} e.

Definition M (A : Type) : Type := World → Completion A * World.

Definition ret {A} (a : A) : M A := λ w, (Normal a, w).

Definition bind {A B} (m : M A) (k : A → M B) : M B :=
  λ w, match m w with
       | (Normal a, w1) => k a w1
       | (Throw e, w1) => (Throw e, w1)
       end.

Definition throw {A} (e : exn) : M A := λ w, (Throw e, w).

Definition lift {A} (c : Completion A) : M A := λ w, (c, w).

Notation "'let!' x ':=' m 'in' k" := (bind m (λ x, k))
  (at level 10, x name, m at level 100, k at level 200).
Notation "m '>>' k" := (bind m (λ _, k))
  (at level 100, k at level 200, right associativity).

(** [try { body } finally { fin }]: [fin] always runs; a pending exception of
    [body] is raised again afterwards unless [fin] itself throws. *)
Definition try_finally {A} (body : M A) (fin : M unit) : M A :=
  λ w, match body w with
       | (r, w1) =>
           match fin w1 with
           | (Normal _, w2) => (r, w2)
           | (Throw e, w2) => (Throw e, w2)
           end
       end.

(** [try { body } catch (e) { handler }]. *)
Definition try_catch {A} (body : M A) (handler : exn → M A) : M A :=
  λ w, match body w with
       | (Throw e, w1) => handler e w1
       | done => done
       end.

Definition log (e : Effect) : M unit :=
  λ w, (Normal tt, with_trace (λ t, t ++ [e]) w).

(** ** Collaborators *)

(** Modelled from the spec: [realm.getClientById(id)], the registry's
    lookup. *)
Definition realm_getClientById (id : string) : M (option cref) :=
  log (ERealm (GetClientById id)) >> λ w, (Normal (w_realm w !! id), w).

(** Modelled from the spec: [realm.clearMessageQueue(id)], the registry's
    clearQueue. *)
Definition realm_clearMessageQueue (id : string) : M unit :=
  log (ERealm (ClearMessageQueue id)) >>
  λ w, (Normal tt, with_queues (delete id) w).

(** Modelled from the spec: [realm.removeClientById(id)], the registry's
    remove. *)
Definition realm_removeClientById (id : string) : M unit :=
  log (ERealm (RemoveClientById id)) >>
  λ w, (Normal tt, with_realm (delete id) w).

(** Modelled from the spec: [realm.setClient(client, id)], the registry's
    insert. *)
Definition realm_setClient (c : cref) (id : string) : M unit :=
  log (ERealm (SetClient c id)) >>
  λ w, (Normal tt, with_realm (<[id := c]>) w).

(** Modelled from the spec: [realm.getClientsIds()], the registry's
    liveIds. *)
Definition realm_getClientsIds : M (list string) :=
  log (ERealm GetClientsIds) >>
  λ w, (Normal ((map_to_list (w_realm w)).*1), w).

(** Modelled from the spec: [new Client({ id, token })], a fresh session
    object without a transport. *)
Definition new_Client (id token : string) : M cref :=
  λ w, (Normal (length (w_clients w)),
        with_clients (λ h, h ++ [MkClient id token None]) w).

(** Modelled from the spec: the getters [getId], [getToken] and
    [getSocket] of a session. *)
Definition client_read {A} (f : Client → A) (c : cref) : M A :=
  λ w, match w_clients w !! c with
       | Some o => (Normal (f o), w)
       | None => (Throw (DanglingClient c), w)
       end.

Definition client_getId : cref → M string := client_read c_id.
Definition client_getToken : cref → M string := client_read c_token.
Definition client_getSocket : cref → M (option sock) := client_read c_socket.

(** Modelled from the spec: [client.setSocket(s)]. *)
Definition client_setSocket (c : cref) (s : option sock) : M unit :=
  λ w, match w_clients w !! c with
       | Some o =>
           (Normal tt,
            with_clients (<[c := MkClient (c_id o) (c_token o) s]>) w)
       | None => (Throw (DanglingClient c), w)
       end.

(** [socket.send(JSON.stringify(f))], taken not to raise. *)
Definition socket_send (s : sock) (f : frame) : M unit := log (ESend s f).

Definition close_raises (w : World) (s : sock) : bool :=
  match w_sockets w !! s with
  | Some sk => sk_close_raises sk
  | None => false
  end.

(** [socket.close()] *)
Definition socket_close (s : sock) : M unit :=
  log (ESockClose s) >>
  λ w, if close_raises w s then (Throw (CloseError s), w) else (Normal tt, w).

(** [client.getSocket()?.close()] *)
Definition optional_close (s : option sock) : M unit :=
  match s with
  | Some s => socket_close s
  | None => ret tt
  end.

Definition socket_listeners (w : World) (s : sock) : Socket :=
  default (MkSocket false [] []) (w_sockets w !! s).

(** [socket.on("close", () => ...)] with the closure's captured client. *)
Definition socket_on_close (s : sock) (c : cref) : M unit :=
  λ w, let sk := socket_listeners w s in
       (Normal tt,
        with_sockets (<[s := MkSocket (sk_close_raises sk)
                                      (sk_on_close sk ++ [c])
                                      (sk_on_message sk)]>) w).

(** [socket.on("message", (data) => ...)] *)
Definition socket_on_message (s : sock) (c : cref) : M unit :=
  λ w, let sk := socket_listeners w s in
       (Normal tt,
        with_sockets (<[s := MkSocket (sk_close_raises sk)
                                      (sk_on_close sk)
                                      (sk_on_message sk ++ [c])]>) w).

(** [this.emit(...)] *)
Definition emit (ev : Emitted) : M unit := log (EEmit ev).

(** [o[k] = v] on the own properties of an object: an existing property
    keeps its place, a new one goes last. *)
Fixpoint put_property (k : string) (v : jsval) (ps : list (string * jsval))
    : list (string * jsval) :=
  match ps with
  | [] => [(k, v)]
  | (k', v') :: ps' =>
      if decide (k' = k) then (k, v) :: ps' else (k', v') :: put_property k v ps'
  end.

(** [message.src = v] in strict mode: a [TypeError] on [null] and on
    primitives. *)
Definition assign_src (message : jsval) (v : string) : Completion jsval :=
  match message with
  | JObj ps => Normal (JObj (put_property "src" (JStr v) ps))
  | JArr es ps => Normal (JArr es (put_property "src" (JStr v) ps))
  | other => Throw (TypeError other)
  end.

(** [o[k]] on the own properties of an object. *)
Fixpoint get_property (k : string) (ps : list (string * jsval)) : option jsval :=
  match ps with
  | [] => None
  | (k', v') :: ps' => if decide (k' = k) then Some v' else get_property k ps'
  end.

(** The named properties of a value, and the elements of an array. *)
Definition properties (v : jsval) : list (string * jsval) :=
  match v with JObj ps | JArr _ ps => ps | _ => [] end.
Definition elements_of (v : jsval) : list jsval :=
  match v with JArr es _ => es | _ => [] end.

(** [JSON.parse] yields an object or an array, not a primitive or [null]. *)
Definition structured (v : jsval) : Prop :=
  match v with JObj _ | JArr _ _ => True | _ => False end.

(** [!x] on an optional string. *)
Definition falsy (x : option string) : bool :=
  match x with
  | None => true
  | Some s => bool_decide (s = EmptyString)
  end.

Definition RECONNECT : string := "__RECONNECT__".

(** The build of [_onSocketConnection] in force. *)
Inductive Variant := JS | TS.

Section WebSocketServer.

(** [JSON.parse] of the runtime: [None] is a [SyntaxError]. *)
Variable JSON_parse : string → option jsval.

(** The fields of [this]: [config], and whether [onClose] was supplied. *)
Variable config : CustomConfig.
Variable onClose : bool.

(** [this.onClose?.(client)] *)
Definition call_onClose (c : cref) : M unit :=
  if onClose then log (EOnClose c) else ret tt.

Definition _sendErrorAndClose (socket : sock) (msg : Errors) : M unit :=
  socket_send socket (Frame ERROR (Some (MsgOfError msg))) >>
  socket_close socket.

(** The [close] listener installed by [_configureWS]. *)
Definition close_listener (socket : sock) (client : cref) : M unit :=
  let! cur := client_getSocket client in
  if decide (cur = Some socket) then
    let! id := client_getId client in
    realm_removeClientById id >>
    emit (EvClose client)
  else ret tt.

(** The [message] listener installed by [_configureWS]. *)
Definition message_listener (socket : sock) (client : cref) (data : string)
    : M unit :=
  try_catch
    (let! message :=
       match JSON_parse data with
       | Some v => ret v
       | None => throw (SyntaxError data)
       end in
     let! id := client_getId client in
     let! message := lift (assign_src message id) in
     emit (EvMessage client message))
    (λ e, emit (EvError e)).

Definition _configureWS (socket : sock) (client : cref) : M unit :=
  client_setSocket client (Some socket) >>
  socket_on_close socket client >>
  socket_on_message socket client >>
  emit (EvConnection client).

Definition _registerClient (socket : sock) (id token : string) : M unit :=
  let! ids := realm_getClientsIds in
  let clientsCount := Z.of_nat (length ids) in
  if decide (clientsCount >= concurrent_limit config)%Z then
    _sendErrorAndClose socket CONNECTION_LIMIT_EXCEED
  else
    let! newClient := new_Client id token in
    realm_setClient newClient id >>
    socket_send socket (Frame OPEN None) >>
    _configureWS socket newClient.

(** The eviction block shared by both builds:
    [try { client.getSocket()?.close() } finally { ... }]. *)
Definition evict (id : string) (client : cref) : M unit :=
  try_finally
    (let! s := client_getSocket client in optional_close s)
    (realm_clearMessageQueue id >>
     realm_removeClientById id >>
     client_setSocket client None >>
     call_onClose client).

(** The branch for a token that is not the reconnect token. *)
Definition normal_path (socket : sock) (client : cref) (token : string) : M unit :=
  let! stored := client_getToken client in
  if decide (token ≠ stored) then
    socket_send socket (Frame ID_TAKEN (Some (MsgText "ID is taken"))) >>
    socket_close socket
  else _configureWS socket client.

(** [_onSocketConnection] of the compiled JavaScript build. *)
Definition _onSocketConnection_js (socket : sock) (query : IAuthParams) : M unit :=
  if falsy (a_id query) || falsy (a_token query) || falsy (a_key query) then
    _sendErrorAndClose socket INVALID_WS_PARAMETERS
  else
    let id := default EmptyString (a_id query) in
    let token := default EmptyString (a_token query) in
    if decide (a_key query ≠ Some (key config)) then
      _sendErrorAndClose socket INVALID_KEY
    else
      let! client := realm_getClientById id in
      match client with
      | Some client =>
          if decide (token = RECONNECT) then
            evict id client >>
            _registerClient socket id token
          else normal_path socket client token
      | None => _registerClient socket id token
      end.

(** [_onSocketConnection] of the TypeScript source.  [random] is what
    [Math.random().toString(36).substr(2)] evaluates to if that line is
    reached. *)
Definition _onSocketConnection_ts (socket : sock) (query : IAuthParams)
    (random : string) : M unit :=
  if falsy (a_id query) || falsy (a_token query) || falsy (a_key query) then
    _sendErrorAndClose socket INVALID_WS_PARAMETERS
  else
    let id := default EmptyString (a_id query) in
    let token := default EmptyString (a_token query) in
    if decide (a_key query ≠ Some (key config)) then
      _sendErrorAndClose socket INVALID_KEY
    else
      let! client := realm_getClientById id in
      let finalToken := token in
      match client with
      | Some client =>
          if decide (token = RECONNECT) then
            evict id client >>
            let finalToken := random in
            _registerClient socket id finalToken
          else normal_path socket client token
      | None => _registerClient socket id finalToken
      end.

Definition _onSocketConnection (v : Variant) (socket : sock)
    (query : IAuthParams) (random : string) : M unit :=
  match v with
  | JS => _onSocketConnection_js socket query
  | TS => _onSocketConnection_ts socket query random
  end.

(** ** Events delivered by the runtime *)

(** [emit] of the socket: the listeners run in registration order and an
    exception of one of them ends the dispatch. *)
Fixpoint run_listeners (f : cref → M unit) (cs : list cref) : M unit :=
  match cs with
  | [] => ret tt
  | c :: cs => f c >> run_listeners f cs
  end.

Inductive event :=
  | OnConnection (v : Variant) (socket : sock) (raises : bool)
                 (query : IAuthParams) (random : string)
  | OnSocketClose (socket : sock)
  | OnSocketMessage (socket : sock) (data : string)
  | Enqueue (id : string) (m : jsval).

(** The socket server's [connection] event brings a socket never seen
    before; [Enqueue] is the rest of the service adding to a queue. *)
Definition enabled (e : event) (w : World) : Prop :=
  match e with
  | OnConnection _ socket _ _ _ => w_sockets w !! socket = None
  | _ => True
  end.

Definition handle (e : event) : M unit :=
  match e with
  | OnConnection v socket raises query random =>
      (λ w, (Normal tt,
             with_sockets (<[socket := MkSocket raises [] []]>) w)) >>
      _onSocketConnection v socket query random
  | OnSocketClose socket =>
      λ w, run_listeners (close_listener socket)
             (sk_on_close (socket_listeners w socket)) w
  | OnSocketMessage socket data =>
      λ w, run_listeners (λ c, message_listener socket c data)
             (sk_on_message (socket_listeners w socket)) w
  | Enqueue id m =>
      λ w, (Normal tt,
            with_queues (λ q, <[id := default [] (q !! id) ++ [m]]> q) w)
  end.

(** The worlds the server can be in, an uncaught exception of a handler
    leaving its effects in place. *)
Inductive reachable : World → Prop :=
  | reachable_init : reachable init
  | reachable_step w e :
      reachable w → enabled e w → reachable (handle e w).2.

(** ** Vocabulary of the statements *)

(** A query parameter is absent when it is undefined or empty. *)
Definition absent (x : option string) : Prop := x = None ∨ x = Some EmptyString.
Definition present (x : option string) : Prop := ∃ s, x = Some s ∧ s ≠ EmptyString.

(** The log extended by [t], nothing else touched. *)
Definition logged (t : list Effect) (w : World) : World :=
  with_trace (λ t0, t0 ++ t) w.

(** What [socket.close()] completes with in [w]. *)
Definition close_completion (w : World) (s : sock) : Completion unit :=
  if close_raises w s then Throw (CloseError s) else Normal tt.

(** The listeners of [socket] once [c] has been wired to it. *)
Definition listening (w : World) (socket : sock) (c : cref) : Socket :=
  let sk := socket_listeners w socket in
  MkSocket (sk_close_raises sk) (sk_on_close sk ++ [c]) (sk_on_message sk ++ [c]).

(** The world after [_configureWS socket c], [o] being the object at [c]. *)
Definition attached (socket : sock) (c : cref) (o : Client) (w : World) : World :=
  MkWorld (<[c := MkClient (c_id o) (c_token o) (Some socket)]> (w_clients w))
          (w_realm w) (w_queues w)
          (<[socket := listening w socket c]> (w_sockets w))
          (w_trace w ++ [EEmit (EvConnection c)]).

(** The world after a registration below the ceiling. *)
Definition registered (socket : sock) (id token : string) (w : World) : World :=
  let c := length (w_clients w) in
  MkWorld (w_clients w ++ [MkClient id token (Some socket)])
          (<[id := c]> (w_realm w)) (w_queues w)
          (<[socket := listening w socket c]> (w_sockets w))
          (w_trace w ++ [ERealm GetClientsIds; ERealm (SetClient c id);
                         ESend socket (Frame OPEN None);
                         EEmit (EvConnection c)]).

Definition close_log (s : option sock) : list Effect :=
  match s with Some s => [ESockClose s] | None => [] end.

Definition onClose_log (c : cref) : list Effect :=
  if onClose then [EOnClose c] else [].

(** The world after the eviction block on the object [o] at [c]. *)
Definition evicted (id : string) (c : cref) (o : Client) (w : World) : World :=
  MkWorld (<[c := MkClient (c_id o) (c_token o) None]> (w_clients w))
          (delete id (w_realm w)) (delete id (w_queues w)) (w_sockets w)
          (w_trace w ++ close_log (c_socket o) ++
             [ERealm (ClearMessageQueue id); ERealm (RemoveClientById id)] ++
             onClose_log c).

(** What [client.getSocket()?.close()] completes with in [w]. *)
Definition optional_close_completion (w : World) (s : option sock)
    : Completion unit :=
  match s with Some s => close_completion w s | None => Normal tt end.

(** The world after the [close] listener found its socket still bound. *)
Definition closed (c : cref) (o : Client) (w : World) : World :=
  MkWorld (w_clients w) (delete (c_id o) (w_realm w)) (w_queues w) (w_sockets w)
          (w_trace w ++ [ERealm (RemoveClientById (c_id o)); EEmit (EvClose c)]).

(** Counting log entries: calls of [onClose] with [c], [connection] events,
    OPEN frames. *)
Definition is_onClose_of (c : cref) (e : Effect) : bool :=
  match e with EOnClose c' => bool_decide (c' = c) | _ => false end.
Definition is_connection_event_of (c : cref) (e : Effect) : bool :=
  match e with EEmit (EvConnection c') => bool_decide (c' = c) | _ => false end.
Definition is_connection_event (e : Effect) : bool :=
  match e with EEmit (EvConnection _) => true | _ => false end.
Definition is_open_frame (e : Effect) : bool :=
  match e with ESend _ (Frame OPEN _) => true | _ => false end.
Definition count (p : Effect → bool) (t : list Effect) : nat :=
  length (List.filter p t).

(** Replaying the registry calls of a log over the set of live identifiers:
    [None] as soon as a [setClient] lands on an identifier that is live. *)
Fixpoint registry_history (t : list Effect) (live : gset string)
    : option (gset string) :=
  match t with
  | [] => Some live
  | ERealm (SetClient _ id) :: t =>
      if decide (id ∈ live) then None
      else registry_history t ({[id]} ∪ live)
  | ERealm (RemoveClientById id) :: t => registry_history t (live ∖ {[id]})
  | _ :: t => registry_history t live
  end.

(** The registry entries whose session carries identifier [i]. *)
Definition sessions_with_id (i : string) (w : World) : list (string * cref) :=
  filter (λ kr, c_id <$> (w_clients w !! kr.2) = Some i) (map_to_list (w_realm w)).

(** The handshake passes the gate with identifier [id] and token [token]. *)
Definition passes_gate (q : IAuthParams) (id token : string) : Prop :=
  a_id q = Some id ∧ id ≠ EmptyString ∧ a_token q = Some token ∧ token ≠ EmptyString ∧
  a_key q = Some (key config) ∧ key config ≠ EmptyString.

(** The token under which an eviction registers the replacement. *)
Definition final_token (v : Variant) (random : string) : string :=
  match v with JS => RECONNECT | TS => random end.

(** What the [message] listener emits for [data] on a session named [id]. *)
Definition relayed (c : cref) (id : string) (data : string) : Emitted :=
  match JSON_parse data with
  | None => EvError (SyntaxError data)
  | Some v =>
      match assign_src v id with
      | Normal m => EvMessage c m
      | Throw e => EvError e
      end
  end.

(** The invariant of the reachable worlds. *)
Record registry_inv (w : World) : Prop := {
  inv_entry : ∀ i r, w_realm w !! i = Some r →
              ∃ o, w_clients w !! r = Some o ∧ c_id o = i;
  inv_bound : (Z.of_nat (size (w_realm w)) ≤ Z.max 0 (concurrent_limit config))%Z;
  inv_history : registry_history (w_trace w) ∅ = Some (dom (w_realm w))
}.

End WebSocketServer.

(** ** The path on which the two builds part *)

(** The attempt passes the gate with the reconnect token for an identifier
    registered to the session [o] at [c], the [close()] of that session's
    socket does not raise, and with the session removed the registry is
    below the ceiling: the eviction is followed by a registration. *)
Definition reregisters (config : CustomConfig) (q : IAuthParams) (w : World)
    (id : string) (c : cref) (o : Client) : Prop :=
  passes_gate config q id RECONNECT ∧
  w_realm w !! id = Some c ∧ w_clients w !! c = Some o ∧
  optional_close_completion w (c_socket o) = Normal tt ∧
  (Z.of_nat (size (delete id (w_realm w))) < concurrent_limit config)%Z.

(** ** The constructor *)

(** [s.endsWith(t)]: some suffix of [s] is [t]. *)
Fixpoint endsWith (s t : string) : bool :=
  if decide (s = t) then true
  else match s with
       | EmptyString => false
       | String _ s' => endsWith s' t
       end.

Definition WS_PATH : string := "peerjs".

(** The [path] field set by the constructor from [config.path]:
    [`${path}${path.endsWith('/') ? "" : "/"}${WS_PATH}`]. *)
Definition server_path (path : string) : string :=
  path +:+ (if endsWith path "/" then EmptyString else "/") +:+ WS_PATH.

(** ** The ways a connection attempt can end *)

(** The result of [_onSocketConnection] in a world [w], by the branch taken:
    the two gate failures, the rejection of a wrong token, the refusal at
    the ceiling, a fresh registration, a rebind, and an eviction cut short
    by a failing [close()] or followed by a registration. *)
Inductive attempt_outcome (config : CustomConfig) (onClose : bool)
    (v : Variant) (socket : sock) (q : IAuthParams) (random : string)
    (w : World) : Completion unit * World → Prop :=
  | gate_failed e :
      (e = INVALID_WS_PARAMETERS ∨ e = INVALID_KEY) →
      attempt_outcome config onClose v socket q random w
        (close_completion w socket,
         logged [ESend socket (Frame ERROR (Some (MsgOfError e)));
                 ESockClose socket] w)
  | token_rejected id token c o :
      passes_gate config q id token →
      w_realm w !! id = Some c → w_clients w !! c = Some o →
      token ≠ RECONNECT → token ≠ c_token o →
      attempt_outcome config onClose v socket q random w
        (close_completion w socket,
         logged [ERealm (GetClientById id);
                 ESend socket (Frame ID_TAKEN (Some (MsgText "ID is taken")));
                 ESockClose socket] w)
  | ceiling_reached id token :
      passes_gate config q id token →
      w_realm w !! id = None →
      (Z.of_nat (size (w_realm w)) >= concurrent_limit config)%Z →
      attempt_outcome config onClose v socket q random w
        (close_completion w socket,
         logged [ERealm (GetClientById id); ERealm GetClientsIds;
                 ESend socket
                   (Frame ERROR (Some (MsgOfError CONNECTION_LIMIT_EXCEED)));
                 ESockClose socket] w)
  | newly_registered id token :
      passes_gate config q id token →
      w_realm w !! id = None →
      (Z.of_nat (size (w_realm w)) < concurrent_limit config)%Z →
      attempt_outcome config onClose v socket q random w
        (Normal tt,
         registered socket id token (logged [ERealm (GetClientById id)] w))
  | rebound id token c o :
      passes_gate config q id token →
      w_realm w !! id = Some c → w_clients w !! c = Some o →
      token ≠ RECONNECT → token = c_token o →
      attempt_outcome config onClose v socket q random w
        (Normal tt, attached socket c o (logged [ERealm (GetClientById id)] w))
  | eviction_aborted id c o s :
      passes_gate config q id RECONNECT →
      w_realm w !! id = Some c → w_clients w !! c = Some o →
      c_socket o = Some s → close_raises w s = true →
      attempt_outcome config onClose v socket q random w
        (Throw (CloseError s),
         evicted onClose id c o (logged [ERealm (GetClientById id)] w))
  | evicted_and_registered id c o :
      passes_gate config q id RECONNECT →
      w_realm w !! id = Some c → w_clients w !! c = Some o →
      optional_close_completion w (c_socket o) = Normal tt →
      attempt_outcome config onClose v socket q random w
        (Normal tt,
         registered socket id (final_token v random)
           (evicted onClose id c o (logged [ERealm (GetClientById id)] w))).

(** ** Sessions and their sockets *)

(** No session holds [socket] and nothing listens on it yet. *)
Definition unused (socket : sock) (w : World) : Prop :=
  (∀ c o, w_clients w !! c = Some o → c_socket o ≠ Some socket) ∧
  sk_on_close (socket_listeners w socket) = [] ∧
  sk_on_message (socket_listeners w socket) = [].

(** What holds of sessions and sockets in the reachable worlds: a registered
    session is filed under its own, non-empty identifier and holds a socket;
    the socket a session holds carries the listeners of that session and of
    no other; every socket has no listener or one pair of them. *)
Record session_inv (w : World) : Prop := {
  sinv_entry : ∀ i c, w_realm w !! i = Some c →
    i ≠ EmptyString ∧
    ∃ o s, w_clients w !! c = Some o ∧ c_id o = i ∧ c_socket o = Some s;
  sinv_socket : ∀ c o s, w_clients w !! c = Some o → c_socket o = Some s →
    ∃ sk, w_sockets w !! s = Some sk ∧
          sk_on_close sk = [c] ∧ sk_on_message sk = [c];
  sinv_wired : ∀ s sk, w_sockets w !! s = Some sk →
    sk_on_close sk = sk_on_message sk ∧
    (sk_on_close sk = [] ∨
     ∃ c, sk_on_close sk = [c] ∧ c < length (w_clients w))
}.

(** Log entries by kind: frames sent, frames sent on [socket], [close()]
    calls, [close()] calls on [socket], [close] events. *)
Definition is_send (e : Effect) : bool :=
  match e with ESend _ _ => true | _ => false end.
Definition is_send_on (socket : sock) (e : Effect) : bool :=
  match e with ESend s _ => bool_decide (s = socket) | _ => false end.
Definition is_close_call (e : Effect) : bool :=
  match e with ESockClose _ => true | _ => false end.
Definition is_close_call_on (socket : sock) (e : Effect) : bool :=
  match e with ESockClose s => bool_decide (s = socket) | _ => false end.

Ltac unfold_ops :=
  unfold _registerClient, evict, normal_path, _sendErrorAndClose,
    close_listener, message_listener, _configureWS, call_onClose,
    realm_getClientById, realm_clearMessageQueue, realm_removeClientById,
    realm_setClient, realm_getClientsIds, new_Client,
    client_getId, client_getToken, client_getSocket, client_read,
    client_setSocket, socket_send, socket_close, optional_close,
    socket_on_close, socket_on_message, emit,
    try_finally, try_catch, log, bind, ret, throw, lift,
    attached, registered, evicted, closed, logged, listening,
    optional_close_completion, close_completion, close_log, onClose_log,
    relayed,
    close_raises, socket_listeners,
    with_clients, with_realm, with_queues, with_sockets, with_trace in *.

(** Symbolic execution over an opened world. *)
Ltac exec w :=
  destruct w as [clients realm queues sockets trace];
  unfold_ops; cbn [w_clients w_realm w_queues w_sockets w_trace] in *.
Ltac exec_on := unfold_ops; cbn [w_clients w_realm w_queues w_sockets w_trace] in *.

(** Projections out of the worlds named in the vocabulary. *)
Ltac open_worlds :=
  unfold registered, evicted, attached, closed, logged,
    with_clients, with_realm, with_queues, with_sockets, with_trace in *;
  cbn [w_clients w_realm w_queues w_sockets w_trace fst snd] in *.

Ltac tidy_trace := rewrite <- ?app_assoc; cbn [app].

(** ** Sample inputs *)

(** The default configuration of the server, and one with room for a single
    session. *)
Definition sample_config : CustomConfig := Config "peerjs" 5000.
Definition tight_config : CustomConfig := Config "peerjs" 1.

(** A stand-in for [JSON.parse] that knows the empty array and the empty
    object. *)
Definition sample_parse (data : string) : option jsval :=
  if decide (data = "[]") then Some (JArr [] [])
  else if decide (data = "{}") then Some (JObj [])
  else None.

Definition sample_query (id token : string) : IAuthParams :=
  AuthParams (Some id) (Some token) (Some "peerjs").

(** The world after a first connection of peer A on socket 1. *)
Definition world_A (cfg : CustomConfig) (raises : bool) (token : string) : World :=
  (handle sample_parse cfg true
     (OnConnection TS 1 raises (sample_query "A" token) "k3x9q") init).2.

(** The log entries added between two worlds. *)
Definition appended (w w' : World) : list Effect :=
  drop (length (w_trace w)) (w_trace w').

Section Properties.

Variable JSON_parse : string → option jsval.
Variable config : CustomConfig.
Variable onClose : bool.

Lemma falsy_absent x : falsy x = true ↔ absent x.
Proof.
  unfold absent. destruct x as [s|]; simpl.
  - rewrite bool_decide_eq_true. split; [intros ->; by right | by intros [|[= ->]]].
  - split; [by left | done].
Qed.

Lemma falsy_present x : falsy x = false ↔ present x.
Proof.
  unfold present. destruct x as [s|]; simpl.
  - rewrite bool_decide_eq_false. split; [by exists s | by intros (?&[= ->]&?)].
  - split; [done | by intros (?&?&?)].
Qed.

Lemma sendErrorAndClose_run socket msg w :
  _sendErrorAndClose socket msg w =
    (close_completion w socket,
     logged [ESend socket (Frame ERROR (Some (MsgOfError msg))); ESockClose socket] w).
Proof.
  exec w. tidy_trace. by repeat case_match.
Qed.

Lemma configureWS_run socket c o w :
  w_clients w !! c = Some o →
  _configureWS socket c w = (Normal tt, attached socket c o w).
Proof.
  intros Hc. exec w. rewrite Hc. cbn.
  rewrite lookup_insert_eq, insert_insert_eq. done.
Qed.

Lemma registerClient_full socket id token w :
  (Z.of_nat (size (w_realm w)) >= concurrent_limit config)%Z →
  _registerClient config socket id token w =
    (close_completion w socket,
     logged [ERealm GetClientsIds;
             ESend socket (Frame ERROR (Some (MsgOfError CONNECTION_LIMIT_EXCEED)));
             ESockClose socket] w).
Proof.
  intros Hfull. exec w.
  rewrite length_fmap, length_map_to_list. rewrite decide_True by done.
  exec_on. tidy_trace. by repeat case_match.
Qed.

Lemma registerClient_ok socket id token w :
  (Z.of_nat (size (w_realm w)) < concurrent_limit config)%Z →
  _registerClient config socket id token w =
    (Normal tt, registered socket id token w).
Proof.
  intros Hroom. exec w.
  rewrite length_fmap, length_map_to_list. rewrite decide_False by lia.
  cbn. rewrite lookup_app_r, Nat.sub_diag by done. cbn.
  rewrite lookup_insert_eq, insert_insert_eq. cbn.
  rewrite insert_app_r_alt, Nat.sub_diag by done. cbn.
  tidy_trace. done.
Qed.

Lemma evict_run id c o w :
  w_clients w !! c = Some o →
  evict onClose id c w =
    (optional_close_completion w (c_socket o), evicted onClose id c o w).
Proof.
  intros Hc. exec w. rewrite Hc. cbn.
  destruct (c_socket o) as [s|]; cbn; exec_on; rewrite ?Hc; cbn.
  - destruct (match sockets !! s with Some sk => sk_close_raises sk | None => false end);
      destruct onClose; cbn; rewrite ?Hc; cbn; tidy_trace; done.
  - destruct onClose; cbn; rewrite ?Hc; cbn; tidy_trace; done.
Qed.

Lemma close_listener_bound socket c o w :
  w_clients w !! c = Some o → c_socket o = Some socket →
  close_listener socket c w = (Normal tt, closed c o w).
Proof.
  intros Hc Hs. exec w. rewrite Hc. cbn. rewrite decide_True by done.
  cbn. rewrite Hc. cbn. tidy_trace. done.
Qed.

Lemma close_listener_stale socket c o w :
  w_clients w !! c = Some o → c_socket o ≠ Some socket →
  close_listener socket c w = (Normal tt, w).
Proof.
  intros Hc Hs. exec w. rewrite Hc. cbn. by rewrite decide_False.
Qed.

Lemma close_listener_dangling socket c w :
  w_clients w !! c = None →
  close_listener socket c w = (Throw (DanglingClient c), w).
Proof. intros Hc. exec w. by rewrite Hc. Qed.

Lemma message_listener_run socket c o data w :
  w_clients w !! c = Some o →
  message_listener JSON_parse socket c data w =
    (Normal tt, logged [EEmit (relayed JSON_parse c (c_id o) data)] w).
Proof.
  intros Hc. exec w. destruct (JSON_parse data) as [v|]; cbn; [|done].
  rewrite Hc. cbn. by destruct (assign_src v (c_id o)).
Qed.

Lemma message_listener_dangling socket c data w :
  w_clients w !! c = None →
  message_listener JSON_parse socket c data w =
    (Normal tt,
     logged [EEmit (EvError (match JSON_parse data with
                             | Some _ => DanglingClient c
                             | None => SyntaxError data
                             end))] w).
Proof.
  intros Hc. exec w. destruct (JSON_parse data) as [v|]; cbn; [|done].
  rewrite Hc. done.
Qed.

(** *** The paths of [_onSocketConnection] *)

Lemma passes_gate_checks q id token :
  passes_gate config q id token →
  falsy (a_id q) || falsy (a_token q) || falsy (a_key q) = false ∧
  default EmptyString (a_id q) = id ∧ default EmptyString (a_token q) = token ∧
  a_key q = Some (key config).
Proof.
  intros (Hid & Hid' & Htok & Htok' & Hkey & Hkey').
  rewrite Hid, Htok, Hkey. cbn.
  by rewrite !bool_decide_eq_false_2.
Qed.

Lemma connection_past_gate v socket q rnd id token w :
  passes_gate config q id token →
  _onSocketConnection config onClose v socket q rnd w =
    let w0 := logged [ERealm (GetClientById id)] w in
    match w_realm w !! id with
    | None => _registerClient config socket id token w0
    | Some c =>
        if decide (token = RECONNECT) then
          (evict onClose id c >>
           _registerClient config socket id (final_token v rnd)) w0
        else normal_path socket c token w0
    end.
Proof.
  intros Hq. destruct (passes_gate_checks _ _ _ Hq) as (Hf & Hid & Htok & Hkey).
  destruct v; unfold _onSocketConnection, _onSocketConnection_js, _onSocketConnection_ts;
    rewrite Hf, Hid, Htok, decide_False by (by rewrite Hkey; intros []);
    cbn; unfold bind at 1, realm_getClientById, bind at 1, log, logged; cbn.
  all: destruct (w_realm w !! id); [destruct (decide (token = RECONNECT)) as [->|]|]; done.
Qed.

Lemma connection_fresh v socket q rnd id token w :
  passes_gate config q id token → w_realm w !! id = None →
  _onSocketConnection config onClose v socket q rnd w =
    _registerClient config socket id token (logged [ERealm (GetClientById id)] w).
Proof. intros Hq Hnone. rewrite (connection_past_gate _ _ _ _ _ _ _ Hq), Hnone. done. Qed.

Lemma connection_reject v socket q rnd id token c o w :
  passes_gate config q id token →
  w_realm w !! id = Some c → w_clients w !! c = Some o →
  token ≠ RECONNECT → token ≠ c_token o →
  _onSocketConnection config onClose v socket q rnd w =
    (close_completion w socket,
     logged [ERealm (GetClientById id);
             ESend socket (Frame ID_TAKEN (Some (MsgText "ID is taken")));
             ESockClose socket] w).
Proof.
  intros Hq Hc Ho Hne Htok.
  rewrite (connection_past_gate _ _ _ _ _ _ _ Hq), Hc. cbn.
  rewrite decide_False by done. exec w. rewrite Ho. cbn.
  rewrite decide_True by done. exec_on. tidy_trace. by repeat case_match.
Qed.

Lemma connection_rebind v socket q rnd id token c o w :
  passes_gate config q id token →
  w_realm w !! id = Some c → w_clients w !! c = Some o →
  token ≠ RECONNECT → token = c_token o →
  _onSocketConnection config onClose v socket q rnd w =
    (Normal tt, attached socket c o (logged [ERealm (GetClientById id)] w)).
Proof.
  intros Hq Hc Ho Hne Htok.
  rewrite (connection_past_gate _ _ _ _ _ _ _ Hq), Hc. cbn.
  rewrite decide_False by done. unfold normal_path, bind at 1, client_getToken, client_read.
  cbn. rewrite Ho, decide_False by (by intros []).
  by erewrite configureWS_run.
Qed.

Lemma connection_evict v socket q rnd id c o w :
  passes_gate config q id RECONNECT →
  w_realm w !! id = Some c → w_clients w !! c = Some o →
  _onSocketConnection config onClose v socket q rnd w =
    let w1 := evicted onClose id c o (logged [ERealm (GetClientById id)] w) in
    match optional_close_completion w (c_socket o) with
    | Normal _ => _registerClient config socket id (final_token v rnd) w1
    | Throw e => (Throw e, w1)
    end.
Proof.
  intros Hq Hc Ho.
  rewrite (connection_past_gate _ _ _ _ _ _ _ Hq), Hc. cbn.
  rewrite decide_True by done. unfold bind at 1.
  erewrite evict_run by done.
  by destruct (c_socket o).
Qed.

(** *** The invariant *)

Lemma registry_history_app t1 t2 live :
  registry_history (t1 ++ t2) live =
    registry_history t1 live ≫= registry_history t2.
Proof.
  revert live. induction t1 as [|e t1 IH]; intros live; [done|].
  destruct e as [[]| | | |]; cbn; try apply IH.
  case_decide; [done | apply IH].
Qed.

Lemma size_delete_le (rl : gmap string cref) i : size (delete i rl) ≤ size rl.
Proof. rewrite map_size_delete. destruct (rl !! i); cbn; lia. Qed.

Lemma entries_set_socket (cl : list Client) (rl : gmap string cref) c o s :
  cl !! c = Some o →
  (∀ i r, rl !! i = Some r → ∃ o, cl !! r = Some o ∧ c_id o = i) →
  ∀ i r, rl !! i = Some r →
    ∃ o', <[c := MkClient (c_id o) (c_token o) s]> cl !! r = Some o' ∧ c_id o' = i.
Proof.
  intros Hc Hall i r Hr. destruct (Hall i r Hr) as (o' & Ho' & Hid).
  destruct (decide (r = c)) as [->|Hne].
  - rewrite list_lookup_insert_eq by (by eapply lookup_lt_Some).
    eexists; split; [done|]. cbn. congruence.
  - rewrite list_lookup_insert_ne by done. eauto.
Qed.

Lemma inv_logged t w :
  registry_history t (dom (w_realm w)) = Some (dom (w_realm w)) →
  registry_inv config w → registry_inv config (logged t w).
Proof.
  intros Ht [He Hb Hh]. split; cbn; [done | done |].
  by rewrite registry_history_app, Hh.
Qed.

Lemma inv_attached socket c o w :
  w_clients w !! c = Some o →
  registry_inv config w → registry_inv config (attached socket c o w).
Proof.
  intros Hc [He Hb Hh]. split; cbn.
  - by apply entries_set_socket.
  - done.
  - by rewrite registry_history_app, Hh.
Qed.

Lemma inv_registered socket id token w :
  w_realm w !! id = None →
  (Z.of_nat (size (w_realm w)) < concurrent_limit config)%Z →
  registry_inv config w → registry_inv config (registered socket id token w).
Proof.
  intros Hfree Hroom [He Hb Hh]. split; cbn.
  - intros i r Hr. destruct (decide (id = i)) as [->|Hne].
    + rewrite lookup_insert_eq in Hr. injection Hr as <-.
      rewrite lookup_app_r, Nat.sub_diag by done. by eexists.
    + rewrite lookup_insert_ne in Hr by done.
      destruct (He i r Hr) as (o & Ho & Hid).
      rewrite lookup_app_l by (by eapply lookup_lt_Some). eauto.
  - rewrite map_size_insert_None by done. lia.
  - rewrite registry_history_app, Hh. cbn.
    rewrite decide_False by (by rewrite not_elem_of_dom).
    by rewrite dom_insert_L.
Qed.

Lemma inv_evicted id c o w :
  w_clients w !! c = Some o →
  registry_inv config w → registry_inv config (evicted onClose id c o w).
Proof.
  intros Hc [He Hb Hh]. split; cbn.
  - intros i r Hr. apply lookup_delete_Some in Hr as [_ Hr].
    by eapply entries_set_socket.
  - pose proof (size_delete_le (w_realm w) id) as Hle. 
    lia.
  - rewrite registry_history_app, Hh. cbn.
    rewrite registry_history_app. unfold close_log.
    destruct (c_socket o); cbn; unfold onClose_log; destruct onClose; cbn;
      by rewrite dom_delete_L.
Qed.

Lemma inv_closed c o w :
  registry_inv config w → registry_inv config (closed c o w).
Proof.
  intros [He Hb Hh]. split; cbn.
  - intros i r Hr. apply lookup_delete_Some in Hr as [_ Hr]. eauto.
  - pose proof (size_delete_le (w_realm w) (c_id o)) as Hle. 
    lia.
  - rewrite registry_history_app, Hh. cbn. by rewrite dom_delete_L.
Qed.

Lemma connection_gate_params v socket q rnd w :
  falsy (a_id q) || falsy (a_token q) || falsy (a_key q) = true →
  _onSocketConnection config onClose v socket q rnd w =
    _sendErrorAndClose socket INVALID_WS_PARAMETERS w.
Proof.
  intros Hf. destruct v; cbn;
    unfold _onSocketConnection_js, _onSocketConnection_ts; by rewrite Hf.
Qed.

Lemma connection_gate_key v socket q rnd w :
  falsy (a_id q) || falsy (a_token q) || falsy (a_key q) = false →
  a_key q ≠ Some (key config) →
  _onSocketConnection config onClose v socket q rnd w =
    _sendErrorAndClose socket INVALID_KEY w.
Proof.
  intros Hf Hkey. destruct v; cbn;
    unfold _onSocketConnection_js, _onSocketConnection_ts;
    by rewrite Hf, decide_True.
Qed.

Lemma gate_passed q :
  falsy (a_id q) || falsy (a_token q) || falsy (a_key q) = false →
  a_key q = Some (key config) →
  passes_gate config q (default EmptyString (a_id q)) (default EmptyString (a_token q)).
Proof.
  intros Hf Hkey. apply orb_false_iff in Hf as [Hf Hk].
  apply orb_false_iff in Hf as [Hi Ht].
  apply falsy_present in Hi as (i & Hi & ?), Ht as (t & Ht & ?),
    Hk as (k & Hk & ?).
  rewrite Hi, Ht. cbn. repeat split; try done. congruence.
Qed.

Lemma registerClient_inv socket id token w :
  w_realm w !! id = None →
  registry_inv config w →
  registry_inv config (_registerClient config socket id token w).2.
Proof.
  intros Hfree Hinv.
  destruct (decide (Z.of_nat (size (w_realm w)) >= concurrent_limit config)%Z).
  - rewrite registerClient_full by done. by apply inv_logged.
  - rewrite registerClient_ok by lia. apply inv_registered; [done | lia | done].
Qed.

Lemma connection_inv v socket q rnd w :
  registry_inv config w →
  registry_inv config (_onSocketConnection config onClose v socket q rnd w).2.
Proof.
  intros Hinv.
  destruct (falsy (a_id q) || falsy (a_token q) || falsy (a_key q)) eqn:Hf.
  { rewrite connection_gate_params, sendErrorAndClose_run by done.
    by apply inv_logged. }
  destruct (decide (a_key q = Some (key config))) as [Hkey|Hkey]; cycle 1.
  { rewrite connection_gate_key, sendErrorAndClose_run by done.
    by apply inv_logged. }
  pose proof (gate_passed q Hf Hkey) as Hq.
  set (id := default EmptyString (a_id q)) in *. set (token := default EmptyString (a_token q)) in *.
  destruct (w_realm w !! id) as [c|] eqn:Hc; cycle 1.
  { erewrite connection_fresh by done.
    apply registerClient_inv; [done | by apply inv_logged]. }
  destruct (inv_entry _ _ Hinv _ _ Hc) as (o & Ho & Hid).
  destruct (decide (token = RECONNECT)) as [Htok|Htok].
  - rewrite Htok in Hq. erewrite connection_evict by done. cbn zeta.
    assert (registry_inv config
              (evicted onClose id c o (logged [ERealm (GetClientById id)] w)))
      as Hev by (apply inv_evicted; [done | by apply inv_logged]).
    destruct (optional_close_completion w (c_socket o)); [|done].
    apply registerClient_inv; [|done]. cbn. apply lookup_delete_eq.
  - destruct (decide (token = c_token o)).
    + erewrite connection_rebind by done.
      apply inv_attached; [done | by apply inv_logged].
    + erewrite connection_reject by done. by apply inv_logged.
Qed.

Lemma run_listeners_inv (P : World → Prop) f cs :
  (∀ c w, P w → P (f c w).2) → ∀ w, P w → P (run_listeners f cs w).2.
Proof.
  intros Hf. induction cs as [|c cs IH]; intros w Hw; [done|].
  cbn. unfold bind. specialize (Hf c w Hw).
  destruct (f c w) as [[[]|e] w1]; cbn in *; [by apply IH | done].
Qed.

Lemma close_listener_inv socket c w :
  registry_inv config w → registry_inv config (close_listener socket c w).2.
Proof.
  intros Hinv. destruct (w_clients w !! c) as [o|] eqn:Hc.
  - destruct (decide (c_socket o = Some socket)).
    + erewrite close_listener_bound by done. by apply inv_closed.
    + by erewrite close_listener_stale.
  - by rewrite close_listener_dangling.
Qed.

Lemma message_listener_inv socket c data w :
  registry_inv config w →
  registry_inv config (message_listener JSON_parse socket c data w).2.
Proof.
  intros Hinv. destruct (w_clients w !! c) as [o|] eqn:Hc.
  - erewrite message_listener_run by done. by apply inv_logged.
  - rewrite message_listener_dangling by done. by apply inv_logged.
Qed.

Lemma init_inv : registry_inv config init.
Proof.
  split; cbn.
  - intros i r Hr. by rewrite lookup_empty in Hr.
  - rewrite map_size_empty. lia.
  - by rewrite dom_empty_L.
Qed.

Lemma handle_inv e w :
  registry_inv config w →
  registry_inv config (handle JSON_parse config onClose e w).2.
Proof.
  intros Hinv. destruct e as [v socket raises q rnd|socket|socket data|id m]; cbn.
  - unfold bind. apply connection_inv. by destruct Hinv.
  - by apply run_listeners_inv; [intros; apply close_listener_inv|].
  - by apply run_listeners_inv; [intros; apply message_listener_inv|].
  - by destruct Hinv.
Qed.

Lemma reachable_inv w :
  reachable JSON_parse config onClose w → registry_inv config w.
Proof. induction 1; [apply init_inv | by apply handle_inv]. Qed.

Lemma sessions_with_id_unique i w :
  registry_inv config w → length (sessions_with_id i w) ≤ 1.
Proof.
  intros Hinv. unfold sessions_with_id.
  set (l := filter _ _).
  assert (NoDup l.*1) as Hnd.
  { apply (sublist_NoDup _ (map_to_list (w_realm w)).*1).
    - apply NoDup_fst_map_to_list.
    - apply fmap_sublist, sublist_filter. }
  assert (∀ k, k ∈ l.*1 → k = i) as Hall.
  { intros k Hk. apply list_elem_of_fmap in Hk as ([k' r] & -> & Hkr).
    apply list_elem_of_filter in Hkr as [HP Hkr]. cbn in *.
    apply elem_of_map_to_list in Hkr.
    destruct (inv_entry _ _ Hinv _ _ Hkr) as (o & Ho & Hid).
    rewrite Ho in HP. cbn in HP. congruence. }
  rewrite <- (length_fmap fst l).
  destruct (l.*1) as [|a [|b t]]; cbn; [lia | lia |].
  exfalso. apply NoDup_cons in Hnd as [Hnotin _]. apply Hnotin.
  rewrite (Hall a), (Hall b) by repeat constructor. constructor.
Qed.

(** *** Property assignment *)

Lemma get_put_property_eq k v ps :
  get_property k (put_property k v ps) = Some v.
Proof.
  induction ps as [|[k' v'] ps IH]; cbn.
  - by rewrite decide_True.
  - destruct (decide (k' = k)) as [->|Hne]; cbn.
    + by rewrite decide_True.
    + by rewrite decide_False.
Qed.

Lemma get_put_property_ne k k' v ps :
  k' ≠ k → get_property k' (put_property k v ps) = get_property k' ps.
Proof.
  intros Hne. induction ps as [|[k'' v''] ps IH]; cbn.
  - by rewrite decide_False.
  - destruct (decide (k'' = k)) as [->|Hne']; cbn.
    + by rewrite !decide_False.
    + by rewrite IH.
Qed.

Lemma assign_src_structured v id :
  structured v →
  ∃ m, assign_src v id = Normal m ∧
       get_property "src" (properties m) = Some (JStr id) ∧
       (∀ k, k ≠ "src" →
          get_property k (properties m) = get_property k (properties v)) ∧
       elements_of m = elements_of v.
Proof.
  destruct v as [| | | |es ps|ps]; cbn; try done; intros _.
  all: eexists; split; [done|]; cbn.
  all: split; [apply get_put_property_eq|].
  all: split; [intros k Hk; by apply get_put_property_ne | done].
Qed.

(** The payload of section 8 of the specification: a forged [src] is
    replaced in place, the other property is kept. *)
Example forged_src_is_overwritten :
  assign_src (JObj [("src", JStr "forged"); ("foo", JNum 1)]) "A" =
    Normal (JObj [("src", JStr "A"); ("foo", JNum 1)]).
Proof. reflexivity. Qed.

(** The frames of section 6 of the specification as object literals. *)
Example open_frame_object text :
  frame_object text (Frame OPEN None) = JObj [("type", JStr "OPEN")].
Proof. reflexivity. Qed.

Example id_taken_frame_object text :
  frame_object text (Frame ID_TAKEN (Some (MsgText "ID is taken"))) =
    JObj [("type", JStr "ID_TAKEN");
          ("payload", JObj [("msg", JStr "ID is taken")])].
Proof. reflexivity. Qed.

Example error_frame_object text e :
  frame_object text (Frame ERROR (Some (MsgOfError e))) =
    JObj [("type", JStr "ERROR"); ("payload", JObj [("msg", JStr (text e))])].
Proof. reflexivity. Qed.

(** A payload that parses to a primitive or to [null] is reported like a
    parse failure: the assignment raises and the listener emits [error]. *)
Lemma primitive_payload_is_an_error c id data v :
  JSON_parse data = Some v → ¬ structured v →
  relayed JSON_parse c id data = EvError (TypeError v).
Proof.
  intros Hv Hs. unfold relayed. rewrite Hv.
  destruct v; cbn in *; done.
Qed.

(** *** The claims on single handlers *)

(** C5. A connection attempt in which the id, the token or the key is absent
    (undefined or empty) is answered with the ERROR frame carrying
    INVALID_WS_PARAMETERS and closed; one in which all three are present but
    the key differs from the configured key is answered with the ERROR frame
    carrying INVALID_KEY and closed.  In both cases the resulting world is
    the old one with exactly these two socket calls logged: the registry is
    neither read nor written. *)
Theorem gate_rejects_without_registry_access v socket q rnd w :
  let r := _onSocketConnection config onClose v socket q rnd w in
  (absent (a_id q) ∨ absent (a_token q) ∨ absent (a_key q) →
   r = (close_completion w socket,
        logged [ESend socket (Frame ERROR (Some (MsgOfError INVALID_WS_PARAMETERS)));
                ESockClose socket] w)) ∧
  (present (a_id q) → present (a_token q) → present (a_key q) →
   a_key q ≠ Some (key config) →
   r = (close_completion w socket,
        logged [ESend socket (Frame ERROR (Some (MsgOfError INVALID_KEY)));
                ESockClose socket] w)).
Proof.
  cbn zeta. split.
  - intros Habs. rewrite connection_gate_params, sendErrorAndClose_run; [done|].
    rewrite !orb_true_iff, !falsy_absent. destruct Habs as [|[|]]; auto.
  - intros Hi Ht Hk Hkey.
    rewrite connection_gate_key, sendErrorAndClose_run; [done| |done].
    rewrite !orb_false_iff, !falsy_present. by repeat split.
Qed.

(** C6. [_registerClient] with the live-session count at or above the
    ceiling sends the ERROR frame carrying CONNECTION_LIMIT_EXCEED, closes
    the socket and creates nothing; below the ceiling it creates one new
    session object with the given identifier and token, inserts it in the
    registry under the identifier, sends the OPEN frame, binds the socket to
    the session and emits [connection] for it. *)
Theorem registration_respects_ceiling socket id token w :
  let r := _registerClient config socket id token w in
  let live := Z.of_nat (size (w_realm w)) in
  let c := length (w_clients w) in
  ((live >= concurrent_limit config)%Z →
   r = (close_completion w socket,
        logged [ERealm GetClientsIds;
                ESend socket (Frame ERROR (Some (MsgOfError CONNECTION_LIMIT_EXCEED)));
                ESockClose socket] w)) ∧
  ((live < concurrent_limit config)%Z →
   r.1 = Normal tt ∧
   w_clients r.2 = w_clients w ++ [MkClient id token (Some socket)] ∧
   w_realm r.2 = <[id := c]> (w_realm w) ∧
   w_queues r.2 = w_queues w ∧
   w_sockets r.2 = <[socket := listening w socket c]> (w_sockets w) ∧
   w_trace r.2 = w_trace w ++ [ERealm GetClientsIds; ERealm (SetClient c id);
                               ESend socket (Frame OPEN None);
                               EEmit (EvConnection c)]).
Proof.
  cbn zeta. split.
  - intros Hfull. by rewrite registerClient_full.
  - intros Hroom. by rewrite registerClient_ok.
Qed.

(** C4. An attempt that passed the gate for an identifier with a session,
    whose token is neither the session's token nor the reconnect token, gets
    the ID_TAKEN frame with the text "ID is taken" on the new socket, which
    is then closed; session objects, registry, queues and the listeners of
    every socket stay as they were. *)
Theorem mismatched_token_is_rejected v socket q rnd id token c o w :
  passes_gate config q id token →
  w_realm w !! id = Some c → w_clients w !! c = Some o →
  token ≠ c_token o → token ≠ RECONNECT →
  let r := _onSocketConnection config onClose v socket q rnd w in
  r.1 = close_completion w socket ∧
  w_trace r.2 = w_trace w ++
    [ERealm (GetClientById id);
     ESend socket (Frame ID_TAKEN (Some (MsgText "ID is taken")));
     ESockClose socket] ∧
  w_clients r.2 = w_clients w ∧ w_realm r.2 = w_realm w ∧
  w_queues r.2 = w_queues w ∧ w_sockets r.2 = w_sockets w.
Proof.
  intros Hq Hc Ho Htok Hne. cbn zeta.
  by erewrite connection_reject.
Qed.

(** C3. An attempt that passed the gate for an identifier with a session,
    whose token equals the session's token and is not the reconnect token,
    creates no session object and leaves the registry alone; the existing
    session object gets the new socket, no frame is sent, and [connection]
    is emitted with the existing session. *)
Theorem matching_token_rebinds v socket q rnd id token c o w :
  passes_gate config q id token →
  w_realm w !! id = Some c → w_clients w !! c = Some o →
  token = c_token o → token ≠ RECONNECT →
  let r := _onSocketConnection config onClose v socket q rnd w in
  r.1 = Normal tt ∧
  length (w_clients r.2) = length (w_clients w) ∧
  w_clients r.2 = <[c := MkClient (c_id o) (c_token o) (Some socket)]> (w_clients w) ∧
  w_realm r.2 = w_realm w ∧
  w_trace r.2 = w_trace w ++ [ERealm (GetClientById id); EEmit (EvConnection c)].
Proof.
  intros Hq Hc Ho Htok Hne. cbn zeta.
  erewrite connection_rebind by done. cbn.
  rewrite length_insert. tidy_trace. done.
Qed.

(** C7. The [message] listener of a socket bound to a session: when the
    payload parses to an object or an array, its [src] property becomes the
    session's identifier, every other property and element is kept, and
    [message] is emitted with the session and that value; when the payload
    does not parse, [error] is emitted with the parse error.  Either way the
    listener completes normally, the log grows by that one emission (so the
    socket is not closed), and session objects, registry, queues and
    listeners are unchanged. *)
Theorem inbound_data_relayed_with_session_src socket c o data w :
  w_clients w !! c = Some o →
  let r := message_listener JSON_parse socket c data w in
  (∀ v, JSON_parse data = Some v → structured v →
     ∃ m, assign_src v (c_id o) = Normal m ∧
          get_property "src" (properties m) = Some (JStr (c_id o)) ∧
          (∀ k, k ≠ "src" →
             get_property k (properties m) = get_property k (properties v)) ∧
          elements_of m = elements_of v ∧
          r = (Normal tt, logged [EEmit (EvMessage c m)] w)) ∧
  (JSON_parse data = None →
     r = (Normal tt, logged [EEmit (EvError (SyntaxError data))] w)) ∧
  (∃ ev, r = (Normal tt, logged [EEmit ev] w)) ∧
  w_clients r.2 = w_clients w ∧ w_realm r.2 = w_realm w ∧
  w_queues r.2 = w_queues w ∧ w_sockets r.2 = w_sockets w.
Proof.
  intros Hc. cbn zeta. erewrite message_listener_run by done.
  split; [|split; [|split]].
  - intros v Hv Hs.
    destruct (assign_src_structured v (c_id o) Hs) as (m & Hm & Hsrc & Hrest & Hel).
    exists m. unfold relayed. by rewrite Hv, Hm.
  - intros Hnone. unfold relayed. by rewrite Hnone.
  - by eexists.
  - done.
Qed.

(** C8. The [close] listener of a socket, installed for a session: when the
    session's socket is still this socket, the registry entry of the
    session's identifier is removed, so that the session is registered under
    no identifier, and [close] is emitted once with the session; when the
    session's socket is another one (or none), the listener changes nothing
    and emits nothing. *)
Theorem transport_close_guarded_by_current_socket socket c o w :
  w_clients w !! c = Some o →
  let r := close_listener socket c w in
  (c_socket o = Some socket →
     r.1 = Normal tt ∧
     w_realm r.2 = delete (c_id o) (w_realm w) ∧
     (registry_inv config w → ∀ i, w_realm r.2 !! i ≠ Some c) ∧
     w_trace r.2 = w_trace w ++
       [ERealm (RemoveClientById (c_id o)); EEmit (EvClose c)] ∧
     w_clients r.2 = w_clients w) ∧
  (c_socket o ≠ Some socket → r = (Normal tt, w)).
Proof.
  intros Hc. cbn zeta. split.
  - intros Hs. erewrite close_listener_bound by done. cbn.
    repeat split; try done.
    intros Hinv i Hi. apply lookup_delete_Some in Hi as [Hne Hi].
    destruct (inv_entry _ _ Hinv _ _ Hi) as (o' & Ho' & Hid). congruence.
  - intros Hs. by erewrite close_listener_stale.
Qed.

(** *** How one event changes the registry *)

Lemma connection_registry v socket q rnd w :
  registry_inv config w →
  let w' := (_onSocketConnection config onClose v socket q rnd w).2 in
  let c := length (w_clients w) in
  w_realm w' = w_realm w ∨
  ∃ id, a_id q = Some id ∧
    ((w_realm w !! id = None ∧ w_realm w' = <[id := c]> (w_realm w)) ∨
     (a_token q = Some RECONNECT ∧ is_Some (w_realm w !! id) ∧
      (w_realm w' = delete id (w_realm w) ∨
       w_realm w' = <[id := c]> (delete id (w_realm w))))).
Proof.
  intros Hinv. cbn zeta.
  destruct (falsy (a_id q) || falsy (a_token q) || falsy (a_key q)) eqn:Hf.
  { left. by rewrite connection_gate_params, sendErrorAndClose_run. }
  destruct (decide (a_key q = Some (key config))) as [Hkey|Hkey]; cycle 1.
  { left. by rewrite connection_gate_key, sendErrorAndClose_run. }
  pose proof (gate_passed q Hf Hkey) as Hq.
  set (id := default EmptyString (a_id q)) in *. set (token := default EmptyString (a_token q)) in *.
  assert (a_id q = Some id) as Hid by apply Hq.
  assert (a_token q = Some token) as Htoken by apply Hq.
  destruct (w_realm w !! id) as [c|] eqn:Hc; cycle 1.
  { erewrite connection_fresh by done.
    destruct (decide (Z.of_nat (size (w_realm w)) >= concurrent_limit config)%Z).
    - left. by rewrite registerClient_full.
    - right. exists id. split; [done|]. left. split; [done|].
      by rewrite registerClient_ok by (cbn; lia). }
  destruct (inv_entry _ _ Hinv _ _ Hc) as (o & Ho & Ho').
  destruct (decide (token = RECONNECT)) as [Htok|Htok].
  - rewrite Htok in Hq, Htoken. erewrite connection_evict by done. cbn zeta.
    right. exists id. split; [done|]. right. do 2 (split; [done|]).
    destruct (optional_close_completion w (c_socket o)); [|by left].
    set (w1 := evicted _ _ _ _ _).
    destruct (decide (Z.of_nat (size (w_realm w1)) >= concurrent_limit config)%Z).
    + left. by rewrite registerClient_full.
    + right. rewrite registerClient_ok by lia. cbn. by rewrite length_insert.
  - left. destruct (decide (token = c_token o)).
    + by erewrite connection_rebind.
    + by erewrite connection_reject.
Qed.

Lemma close_listener_registry socket c w i r :
  w_realm (close_listener socket c w).2 !! i = Some r → w_realm w !! i = Some r.
Proof.
  destruct (w_clients w !! c) as [o|] eqn:Hc.
  - destruct (decide (c_socket o = Some socket)).
    + erewrite close_listener_bound by done. cbn.
      rewrite lookup_delete_Some. by intros [_ ?].
    + by erewrite close_listener_stale.
  - by rewrite close_listener_dangling.
Qed.

Lemma message_listener_registry socket c data w :
  w_realm (message_listener JSON_parse socket c data w).2 = w_realm w.
Proof.
  destruct (w_clients w !! c) as [o|] eqn:Hc.
  - by erewrite message_listener_run.
  - by rewrite message_listener_dangling.
Qed.

Lemma handle_registry e w i r :
  registry_inv config w →
  w_realm (handle JSON_parse config onClose e w).2 !! i = Some r →
  w_realm w !! i = Some r ∨
  (r = length (w_clients w) ∧
   ∃ v socket raises q rnd,
     e = OnConnection v socket raises q rnd ∧ a_id q = Some i ∧
     (w_realm w !! i = None ∨ a_token q = Some RECONNECT)).
Proof.
  intros Hinv. destruct e as [v socket raises q rnd|socket|socket data|id m]; cbn.
  - unfold bind. set (w0 := with_sockets _ w).
    assert (registry_inv config w0) as Hinv0 by by destruct Hinv.
    destruct (connection_registry v socket q rnd w0 Hinv0)
      as [->|(id & Hid & [[Hnone ->]|(Htok & Hsome & [->| ->])])]; cbn.
    + by left.
    + destruct (decide (id = i)) as [->|Hne].
      * rewrite lookup_insert_eq. intros [= <-]. right. split; [done|].
        exists v, socket, raises, q, rnd. eauto.
      * rewrite lookup_insert_ne by done. by left.
    + rewrite lookup_delete_Some. intros [_ ?]. by left.
    + destruct (decide (id = i)) as [->|Hne].
      * rewrite lookup_insert_eq. intros [= <-]. right. split; [done|].
        exists v, socket, raises, q, rnd. eauto.
      * rewrite lookup_insert_ne, lookup_delete_ne by done. by left.
  - intros Hr. left. revert Hr.
    apply (run_listeners_inv
             (λ w', w_realm w' !! i = Some r → w_realm w !! i = Some r));
      [|done].
    intros c w' Hw' Hr. by apply Hw', (close_listener_registry socket c).
  - intros Hr. left. revert Hr.
    apply (run_listeners_inv
             (λ w', w_realm w' !! i = Some r → w_realm w !! i = Some r));
      [|done].
    intros c w' Hw'. by rewrite message_listener_registry.
  - by left.
Qed.

(** C2. In every world reachable through connection attempts and socket
    events, the registry holds at most one session per identifier, and
    replaying the logged registry calls from the empty registry never meets
    a [setClient] on a live identifier.  Moreover an entry present after an
    event was either present before it, or is the brand-new session object
    of a connection attempt for that identifier which found no session
    there or carried the reconnect token: rebind and reject insert
    nothing. *)
Theorem registry_holds_one_session_per_identifier w :
  reachable JSON_parse config onClose w →
  (∀ i, length (sessions_with_id i w) ≤ 1) ∧
  registry_history (w_trace w) ∅ = Some (dom (w_realm w)) ∧
  (∀ e i r,
     w_realm (handle JSON_parse config onClose e w).2 !! i = Some r →
     w_realm w !! i = Some r ∨
     (r = length (w_clients w) ∧
      ∃ v socket raises q rnd,
        e = OnConnection v socket raises q rnd ∧ a_id q = Some i ∧
        (w_realm w !! i = None ∨ a_token q = Some RECONNECT))).
Proof.
  intros Hreach. pose proof (reachable_inv w Hreach) as Hinv.
  split; [|split].
  - intros i. by eapply sessions_with_id_unique.
  - by destruct Hinv.
  - intros e i r. by apply handle_registry.
Qed.

(** *** Eviction *)

Lemma evict_dangling id c w :
  w_clients w !! c = None →
  (evict onClose id c w).1 = Throw (DanglingClient c).
Proof. intros Hc. exec w. rewrite Hc. cbn. by rewrite Hc. Qed.

(** Once a session is evicted, the delayed [close] event of its old socket
    finds another socket on it and does nothing. *)
Lemma close_listener_after_eviction socket id c o w :
  w_clients w !! c = Some o →
  close_listener socket c (evicted onClose id c o w) =
    (Normal tt, evicted onClose id c o w).
Proof.
  intros Hc. eapply close_listener_stale.
  - open_worlds. apply list_lookup_insert_eq. by eapply lookup_lt_Some.
  - done.
Qed.

Lemma count_app p (t1 t2 : list Effect) :
  count p (t1 ++ t2) = count p t1 + count p t2.
Proof. unfold count. by rewrite List.filter_app, length_app. Qed.

Lemma count_onClose_log c :
  count (is_onClose_of c) (onClose_log onClose c) = (if onClose then 1 else 0).
Proof.
  unfold onClose_log. destruct onClose; cbn; [|done].
  by rewrite bool_decide_eq_true_2.
Qed.

Lemma count_close_log p s :
  (∀ s, p (ESockClose s) = false) → count p (close_log s) = 0.
Proof. intros Hp. destruct s; cbn; [|done]. unfold count. cbn. by rewrite Hp. Qed.

Lemma count_onClose_log_other p c :
  (∀ c, p (EOnClose c) = false) → count p (onClose_log onClose c) = 0.
Proof.
  intros Hp. unfold onClose_log, count. destruct onClose; cbn; [|done].
  by rewrite Hp.
Qed.

Lemma evicted_room id c o w :
  registry_inv config w → w_realm w !! id = Some c →
  (Z.of_nat (size (w_realm (evicted onClose id c o w))) < concurrent_limit config)%Z.
Proof.
  intros Hinv Hc. cbn. rewrite map_size_delete, Hc. cbn.
  pose proof (inv_bound _ _ Hinv) as Hb.
  assert (size (w_realm w) ≠ 0) as Hnz.
  { intros Hz. apply map_size_empty_inv in Hz. rewrite Hz in Hc.
    by rewrite lookup_empty in Hc. }
  lia.
Qed.

(** C1. In a world satisfying the registry invariant, a connection
    attempt that passes the gate with the reconnect token for an identifier
    with a session [c] has these four effects whether or not closing the old
    socket raises: the queue of the identifier is cleared, [c] is no longer
    the session registered under the identifier, the socket of [c] is null,
    and the [onClose] callback, when one was supplied, is called exactly once
    with [c].  When closing the old socket completes normally, a new session
    object is afterwards registered under the identifier, bound to the new
    socket, and [connection] is emitted for it, last and once.  When closing
    raises, the handler ends with that exception after the four effects:
    the identifier stays unregistered, no session object is created and no
    [connection] is emitted. *)
Theorem reconnect_token_evicts_existing_session v socket q rnd id c w :
  registry_inv config w →
  passes_gate config q id RECONNECT →
  w_realm w !! id = Some c →
  let r := _onSocketConnection config onClose v socket q rnd w in
  let c' := length (w_clients w) in
  ∃ o delta,
    w_clients w !! c = Some o ∧
    w_trace r.2 = w_trace w ++ delta ∧
    w_queues r.2 !! id = None ∧
    w_realm r.2 !! id ≠ Some c ∧
    w_clients r.2 !! c = Some (MkClient (c_id o) (c_token o) None) ∧
    count (is_onClose_of c) delta = (if onClose then 1 else 0) ∧
    match optional_close_completion w (c_socket o) with
    | Normal _ =>
        r.1 = Normal tt ∧
        w_realm r.2 !! id = Some c' ∧
        w_clients r.2 !! c' = Some (MkClient id (final_token v rnd) (Some socket)) ∧
        count (is_connection_event_of c') delta = 1 ∧
        last delta = Some (EEmit (EvConnection c'))
    | Throw e =>
        r.1 = Throw e ∧
        w_realm r.2 !! id = None ∧
        length (w_clients r.2) = length (w_clients w) ∧
        count is_connection_event delta = 0
    end.
Proof.
  intros Hinv Hq Hc. cbn zeta.
  destruct (inv_entry _ _ Hinv _ _ Hc) as (o & Ho & Hid).
  pose proof (lookup_lt_Some _ _ _ Ho) as Hlt.
  erewrite connection_evict by done. cbn zeta.
  set (w1 := evicted _ _ _ _ _).
  assert (Z.of_nat (size (w_realm w1)) < concurrent_limit config)%Z as Hroom.
  { apply evicted_room; [by apply inv_logged | done]. }
  assert (length (w_clients w1) = length (w_clients w)) as Hlen
    by (cbn; apply length_insert).
  exists o.
  destruct (optional_close_completion w (c_socket o)) as [[]|e].
  - exists ([ERealm (GetClientById id)] ++ close_log (c_socket o) ++
            [ERealm (ClearMessageQueue id); ERealm (RemoveClientById id)] ++
            onClose_log onClose c ++
            [ERealm GetClientsIds; ERealm (SetClient (length (w_clients w)) id);
             ESend socket (Frame OPEN None);
             EEmit (EvConnection (length (w_clients w)))]).
    rewrite registerClient_ok by done. subst w1. open_worlds.
    rewrite length_insert.
    split; [done|]. split; [by rewrite <- !app_assoc|].
    split; [apply lookup_delete_eq|].
    split; [rewrite lookup_insert_eq; intros [= Hcc]; lia|].
    split.
    { rewrite lookup_app_l by (by rewrite length_insert).
      by rewrite list_lookup_insert_eq. }
    split.
    { rewrite !count_app, count_onClose_log, count_close_log by done.
      cbn. lia. }
    split; [done|]. split; [apply lookup_insert_eq|].
    split.
    { rewrite lookup_app_r by (by rewrite length_insert).
      by rewrite length_insert, Nat.sub_diag. }
    split.
    { rewrite !count_app, count_close_log, count_onClose_log_other by done.
      unfold count. cbn. by rewrite bool_decide_eq_true_2. }
    rewrite !app_assoc. by rewrite last_app.
  - exists ([ERealm (GetClientById id)] ++ close_log (c_socket o) ++
            [ERealm (ClearMessageQueue id); ERealm (RemoveClientById id)] ++
            onClose_log onClose c).
    subst w1. open_worlds.
    split; [done|]. split; [by rewrite <- !app_assoc|].
    split; [apply lookup_delete_eq|].
    split; [by rewrite lookup_delete_eq|].
    split; [by rewrite list_lookup_insert_eq|].
    split.
    { rewrite !count_app, count_onClose_log, count_close_log by done.
      cbn. lia. }
    split; [done|]. split; [apply lookup_delete_eq|].
    split; [apply length_insert|].
    rewrite !count_app, count_close_log, count_onClose_log_other by done.
    done.
Qed.

(** C10. A connection attempt that passes the gate with the
    reconnect token for an identifier without a session, the live-session
    count being below the ceiling, registers in either build a session whose
    stored token is the literal reconnect token.  And whenever an identifier
    is registered to a session [c2] whose stored token is the reconnect
    token, a further attempt presenting that token evicts [c2] instead of
    rebinding it: its socket becomes null rather than the new socket, it is
    no longer the registered session, the queue is cleared, [onClose] is
    called for it, and no [connection] is emitted for it. *)
Theorem reconnect_token_on_free_identifier_is_stored v socket q rnd id w :
  passes_gate config q id RECONNECT →
  w_realm w !! id = None →
  (Z.of_nat (size (w_realm w)) < concurrent_limit config)%Z →
  let w1 := (_onSocketConnection config onClose v socket q rnd w).2 in
  let c := length (w_clients w) in
  (w_realm w1 !! id = Some c ∧
   w_clients w1 !! c = Some (MkClient id RECONNECT (Some socket))) ∧
  (∀ w2 c2 o2 v2 socket2 rnd2,
     w_realm w2 !! id = Some c2 → w_clients w2 !! c2 = Some o2 →
     c_token o2 = RECONNECT →
     let r2 := _onSocketConnection config onClose v2 socket2 q rnd2 w2 in
     ∃ delta,
       w_trace r2.2 = w_trace w2 ++ delta ∧
       w_clients r2.2 !! c2 = Some (MkClient (c_id o2) RECONNECT None) ∧
       w_realm r2.2 !! id ≠ Some c2 ∧
       w_queues r2.2 !! id = None ∧
       count (is_onClose_of c2) delta = (if onClose then 1 else 0) ∧
       count (is_connection_event_of c2) delta = 0).
Proof.
  intros Hq Hfree Hroom. cbn zeta. split.
  - erewrite connection_fresh by done.
    rewrite registerClient_ok by done. open_worlds.
    split; [apply lookup_insert_eq|].
    by rewrite lookup_app_r, Nat.sub_diag.
  - intros w2 c2 o2 v2 socket2 rnd2 Hc2 Ho2 Htok.
    pose proof (lookup_lt_Some _ _ _ Ho2) as Hlt.
    erewrite connection_evict by done. cbn zeta.
    set (w3 := evicted _ _ _ _ _).
    assert (∀ token,
      let r := _registerClient config socket2 id token w3 in
      ∃ t, w_trace r.2 = w_trace w3 ++ t ∧
           w_clients r.2 !! c2 = w_clients w3 !! c2 ∧
           w_realm r.2 !! id ≠ Some c2 ∧
           w_queues r.2 = w_queues w3 ∧
           count (is_onClose_of c2) t = 0 ∧
           count (is_connection_event_of c2) t = 0) as Hreg.
    { intros token. cbn zeta.
      destruct (decide (Z.of_nat (size (w_realm w3)) >= concurrent_limit config)%Z).
      - rewrite registerClient_full by done. eexists. subst w3. open_worlds.
        split; [done|]. split; [done|].
        split; [by rewrite lookup_delete_eq|]. done.
      - rewrite registerClient_ok by lia. eexists. subst w3. open_worlds.
        rewrite length_insert.
        split; [done|].
        split; [by rewrite lookup_app_l by (by rewrite length_insert)|].
        split; [rewrite lookup_insert_eq; intros [= Hcc]; lia|].
        split; [done|]. split; [done|].
        unfold count. cbn. rewrite bool_decide_eq_false_2 by lia. done. }
    assert (w_clients w3 !! c2 = Some (MkClient (c_id o2) RECONNECT None)) as Hc3.
    { subst w3. open_worlds. by rewrite list_lookup_insert_eq, Htok. }
    assert (∃ t0, w_trace w3 = w_trace w2 ++ t0 ∧
                  count (is_onClose_of c2) t0 = (if onClose then 1 else 0) ∧
                  count (is_connection_event_of c2) t0 = 0) as (t0 & Ht0 & Hn0 & Hk0).
    { exists ([ERealm (GetClientById id)] ++ close_log (c_socket o2) ++
              [ERealm (ClearMessageQueue id); ERealm (RemoveClientById id)] ++
              onClose_log onClose c2).
      subst w3. open_worlds. split; [by rewrite <- !app_assoc|].
      rewrite !count_app, count_onClose_log, count_onClose_log_other,
        !count_close_log by done.
      split; [cbn; lia | done]. }
    assert (w_queues w3 !! id = None) as Hq3
      by (subst w3; open_worlds; apply lookup_delete_eq).
    destruct (optional_close_completion w2 (c_socket o2)) as [[]|e].
    + destruct (Hreg (final_token v2 rnd2)) as (t & Ht & Hcl & Hrl & Hqs & Hn & Hk).
      exists (t0 ++ t). rewrite Ht, Ht0, Hcl, Hqs, !count_app, Hn, Hk, Hn0, Hk0.
      rewrite app_assoc. repeat split; done.
    + exists t0. cbn [fst snd]. repeat split; try done.
      subst w3. open_worlds. by rewrite lookup_delete_eq.
Qed.

(** *** The two builds side by side *)

Lemma builds_when_reregistering v socket q rnd id c o w :
  reregisters config q w id c o →
  _onSocketConnection config onClose v socket q rnd w =
    (Normal tt,
     registered socket id (final_token v rnd)
       (evicted onClose id c o (logged [ERealm (GetClientById id)] w))).
Proof.
  intros (Hq & Hc & Ho & Hclose & Hroom).
  erewrite connection_evict by done. cbn zeta. rewrite Hclose.
  by rewrite registerClient_ok.
Qed.

Lemma builds_compared socket q rnd w :
  _onSocketConnection config onClose TS socket q rnd w =
    _onSocketConnection config onClose JS socket q rnd w ∨
  ∃ id c o, reregisters config q w id c o.
Proof.
  destruct (falsy (a_id q) || falsy (a_token q) || falsy (a_key q)) eqn:Hf.
  { left. by rewrite !connection_gate_params. }
  destruct (decide (a_key q = Some (key config))) as [Hkey|Hkey]; cycle 1.
  { left. by rewrite !connection_gate_key. }
  assert (passes_gate config q (default EmptyString (a_id q))
            (default EmptyString (a_token q))) as Hq by (by apply gate_passed).
  set (id := default EmptyString (a_id q)) in *.
  set (token := default EmptyString (a_token q)) in *.
  erewrite (connection_past_gate TS) by exact Hq.
  erewrite (connection_past_gate JS) by exact Hq. cbn zeta.
  destruct (w_realm w !! id) as [c|] eqn:Hc; [|by left].
  destruct (decide (token = RECONNECT)) as [Htok|Htok]; [|by left].
  rewrite Htok in Hq. unfold bind. set (w0 := logged _ w).
  destruct (w_clients w !! c) as [o|] eqn:Ho; cycle 1.
  { assert ((evict onClose id c w0).1 = Throw (DanglingClient c)) as Hev
      by (by apply evict_dangling).
    destruct (evict onClose id c w0) as [[[]|e] w1]; [done | by left]. }
  erewrite evict_run by done. set (w1 := evicted _ _ _ _ _).
  destruct (optional_close_completion w0 (c_socket o)) as [[]|e] eqn:Hclose;
    [|by left].
  destruct (decide (Z.of_nat (size (w_realm w1)) >= concurrent_limit config)%Z).
  { left. by rewrite !registerClient_full. }
  right. exists id, c, o. split; [exact Hq|]. do 2 (split; [done|]).
  split; [exact Hclose|]. subst w1 w0. open_worlds. lia.
Qed.

(** C9. On every input the two builds of [_onSocketConnection] complete
    alike.  Unless the attempt evicts and then registers (it passes the gate
    with the reconnect token for a registered identifier, the [close()] of
    the old socket does not raise and the freed registry is below the
    ceiling), the two builds return the same completion and the same world,
    log included.  On that path both register the replacement under the
    identifier as the same new object, the JavaScript build with the
    reconnect token as its stored token and the TypeScript build with the
    random token, and the two worlds differ in that token and in nothing
    else. *)
Theorem builds_differ_only_in_replacement_token socket q rnd w :
  let js := _onSocketConnection_js config onClose socket q w in
  let ts := _onSocketConnection_ts config onClose socket q rnd w in
  let c' := length (w_clients w) in
  ts.1 = js.1 ∧
  ((∀ id c o, ¬ reregisters config q w id c o) → ts = js) ∧
  (∀ id c o,
     reregisters config q w id c o →
     js.1 = Normal tt ∧
     w_realm js.2 !! id = Some c' ∧ w_realm ts.2 !! id = Some c' ∧
     w_clients js.2 !! c' = Some (MkClient id RECONNECT (Some socket)) ∧
     w_clients ts.2 !! c' = Some (MkClient id rnd (Some socket)) ∧
     ts.2 = with_clients (<[c' := MkClient id rnd (Some socket)]>) js.2).
Proof.
  cbn zeta.
  change (_onSocketConnection_js config onClose socket q w)
    with (_onSocketConnection config onClose JS socket q rnd w).
  change (_onSocketConnection_ts config onClose socket q rnd w)
    with (_onSocketConnection config onClose TS socket q rnd w).
  assert (∀ id c o,
    reregisters config q w id c o →
    (_onSocketConnection config onClose TS socket q rnd w).1 =
      (_onSocketConnection config onClose JS socket q rnd w).1 ∧
    (_onSocketConnection config onClose JS socket q rnd w).1 = Normal tt ∧
    w_realm (_onSocketConnection config onClose JS socket q rnd w).2 !! id =
      Some (length (w_clients w)) ∧
    w_realm (_onSocketConnection config onClose TS socket q rnd w).2 !! id =
      Some (length (w_clients w)) ∧
    w_clients (_onSocketConnection config onClose JS socket q rnd w).2
      !! length (w_clients w) = Some (MkClient id RECONNECT (Some socket)) ∧
    w_clients (_onSocketConnection config onClose TS socket q rnd w).2
      !! length (w_clients w) = Some (MkClient id rnd (Some socket)) ∧
    (_onSocketConnection config onClose TS socket q rnd w).2 =
      with_clients (<[length (w_clients w) := MkClient id rnd (Some socket)]>)
        (_onSocketConnection config onClose JS socket q rnd w).2) as Hpath.
  { intros id c o Hre.
    rewrite !(builds_when_reregistering _ socket q rnd id c o w Hre).
    open_worlds. cbn [final_token]. rewrite length_insert.
    do 2 (split; [done|]). do 2 (split; [apply lookup_insert_eq|]).
    do 2 (split; [by rewrite lookup_app_r, length_insert, Nat.sub_diag
                    by (by rewrite length_insert)|]).
    f_equal. rewrite insert_app_r_alt by (by rewrite length_insert).
    by rewrite length_insert, Nat.sub_diag. }
  destruct (builds_compared socket q rnd w) as [Heq|(id & c & o & Hre)].
  - split; [by rewrite Heq|]. split; [done|].
    intros id c o Hre. apply (Hpath id c o Hre).
  - split; [apply (Hpath id c o Hre)|]. split.
    + intros Hno. by destruct (Hno id c o).
    + intros id' c' o' Hre'. apply (Hpath id' c' o' Hre').
Qed.

End Properties.

(** ** The claims at sample inputs

    Peer A connects first, on socket 1; the attempts below arrive on
    socket 2. *)

Lemma world_A_reachable cfg raises token :
  reachable sample_parse cfg true (world_A cfg raises token).
Proof. apply reachable_step; [apply reachable_init | reflexivity]. Qed.

Lemma sample_passes_gate cfg id token :
  key cfg = "peerjs" → id ≠ EmptyString → token ≠ EmptyString →
  passes_gate cfg (sample_query id token) id token.
Proof. intros Hk Hi Ht. unfold passes_gate. rewrite Hk. by repeat split. Qed.

Lemma reconnect_token_evicts_existing_session_witness :
  let w := world_A sample_config false "t1" in
  let r := _onSocketConnection sample_config true TS 2
             (sample_query "A" RECONNECT) "k3x9q" w in
  registry_inv sample_config w ∧
  passes_gate sample_config (sample_query "A" RECONNECT) "A" RECONNECT ∧
  w_realm w !! "A" = Some 0 ∧
  ∃ o delta,
    w_clients w !! 0 = Some o ∧
    w_trace r.2 = w_trace w ++ delta ∧
    w_queues r.2 !! "A" = None ∧
    w_realm r.2 !! "A" ≠ Some 0 ∧
    w_clients r.2 !! 0 = Some (MkClient (c_id o) (c_token o) None) ∧
    count (is_onClose_of 0) delta = 1.
Proof.
  cbn zeta.
  assert (registry_inv sample_config (world_A sample_config false "t1")) as Hinv
    by (eapply reachable_inv, world_A_reachable).
  assert (passes_gate sample_config (sample_query "A" RECONNECT) "A" RECONNECT) as Hq
    by (by apply sample_passes_gate).
  assert (w_realm (world_A sample_config false "t1") !! "A" = Some 0) as Hc
    by (vm_compute; reflexivity).
  do 3 (split; [done|]).
  destruct (reconnect_token_evicts_existing_session sample_config true TS 2
              (sample_query "A" RECONNECT) "k3x9q" "A" 0
              (world_A sample_config false "t1") Hinv Hq Hc)
    as (o & delta & H1 & H2 & H3 & H4 & H5 & H6 & _).
  by exists o, delta.
Defined.

Lemma registry_holds_one_session_per_identifier_witness :
  let w := world_A sample_config false "t1" in
  let e := OnConnection JS 2 false (sample_query "B" "t2") "k3x9q" in
  reachable sample_parse sample_config true w ∧
  w_realm (handle sample_parse sample_config true e w).2 !! "B" = Some 1 ∧
  (∀ i, length (sessions_with_id i w) ≤ 1) ∧
  registry_history (w_trace w) ∅ = Some (dom (w_realm w)) ∧
  (w_realm w !! "B" = Some 1 ∨
   1 = length (w_clients w) ∧
   ∃ v socket raises q rnd,
     e = OnConnection v socket raises q rnd ∧ a_id q = Some "B" ∧
     (w_realm w !! "B" = None ∨ a_token q = Some RECONNECT)).
Proof.
  cbn zeta.
  assert (w_realm (handle sample_parse sample_config true
                     (OnConnection JS 2 false (sample_query "B" "t2") "k3x9q")
                     (world_A sample_config false "t1")).2 !! "B" = Some 1)
    as Hnew by (vm_compute; reflexivity).
  destruct (registry_holds_one_session_per_identifier sample_parse sample_config
              true (world_A sample_config false "t1")
              (world_A_reachable sample_config false "t1"))
    as (Hone & Hhist & Hstep).
  split; [apply world_A_reachable|]. split; [exact Hnew|].
  split; [exact Hone|]. split; [exact Hhist|].
  exact (Hstep _ _ _ Hnew).
Defined.

Lemma matching_token_rebinds_witness :
  let w := world_A sample_config false "t1" in
  let o := MkClient "A" "t1" (Some 1) in
  let r := _onSocketConnection sample_config true TS 2
             (sample_query "A" "t1") "k3x9q" w in
  passes_gate sample_config (sample_query "A" "t1") "A" "t1" ∧
  w_realm w !! "A" = Some 0 ∧ w_clients w !! 0 = Some o ∧
  "t1" = c_token o ∧ "t1" ≠ RECONNECT ∧
  r.1 = Normal tt ∧
  length (w_clients r.2) = length (w_clients w) ∧
  w_clients r.2 = <[0 := MkClient "A" "t1" (Some 2)]> (w_clients w) ∧
  w_realm r.2 = w_realm w ∧
  w_trace r.2 = w_trace w ++ [ERealm (GetClientById "A"); EEmit (EvConnection 0)].
Proof.
  cbn zeta.
  assert (passes_gate sample_config (sample_query "A" "t1") "A" "t1") as Hq
    by (by apply sample_passes_gate).
  assert (w_realm (world_A sample_config false "t1") !! "A" = Some 0) as Hc
    by (vm_compute; reflexivity).
  assert (w_clients (world_A sample_config false "t1") !! 0 =
          Some (MkClient "A" "t1" (Some 1))) as Ho by (vm_compute; reflexivity).
  assert ("t1" ≠ RECONNECT) as Hne by done.
  do 5 (split; [done|]).
  exact (matching_token_rebinds sample_config true TS 2 (sample_query "A" "t1")
           "k3x9q" "A" "t1" 0 (MkClient "A" "t1" (Some 1))
           (world_A sample_config false "t1") Hq Hc Ho eq_refl Hne).
Defined.

Lemma mismatched_token_is_rejected_witness :
  let w := world_A sample_config false "t1" in
  let o := MkClient "A" "t1" (Some 1) in
  let r := _onSocketConnection sample_config true TS 2
             (sample_query "A" "t2") "k3x9q" w in
  passes_gate sample_config (sample_query "A" "t2") "A" "t2" ∧
  w_realm w !! "A" = Some 0 ∧ w_clients w !! 0 = Some o ∧
  "t2" ≠ c_token o ∧ "t2" ≠ RECONNECT ∧
  r.1 = close_completion w 2 ∧
  w_trace r.2 = w_trace w ++
    [ERealm (GetClientById "A");
     ESend 2 (Frame ID_TAKEN (Some (MsgText "ID is taken")));
     ESockClose 2] ∧
  w_clients r.2 = w_clients w ∧ w_realm r.2 = w_realm w ∧
  w_queues r.2 = w_queues w ∧ w_sockets r.2 = w_sockets w.
Proof.
  cbn zeta.
  assert (passes_gate sample_config (sample_query "A" "t2") "A" "t2") as Hq
    by (by apply sample_passes_gate).
  assert (w_realm (world_A sample_config false "t1") !! "A" = Some 0) as Hc
    by (vm_compute; reflexivity).
  assert (w_clients (world_A sample_config false "t1") !! 0 =
          Some (MkClient "A" "t1" (Some 1))) as Ho by (vm_compute; reflexivity).
  assert ("t2" ≠ "t1") as Htok by done.
  assert ("t2" ≠ RECONNECT) as Hne by done.
  do 5 (split; [done|]).
  exact (mismatched_token_is_rejected sample_config true TS 2
           (sample_query "A" "t2") "k3x9q" "A" "t2" 0 (MkClient "A" "t1" (Some 1))
           (world_A sample_config false "t1") Hq Hc Ho Htok Hne).
Defined.

Lemma gate_rejects_without_registry_access_witness :
  let q1 := AuthParams (Some "A") None (Some "peerjs") in
  let q2 := AuthParams (Some "A") (Some "t1") (Some "guess") in
  (absent (a_id q1) ∨ absent (a_token q1) ∨ absent (a_key q1)) ∧
  _onSocketConnection sample_config true JS 1 q1 "k3x9q" init =
    (Normal tt,
     logged [ESend 1 (Frame ERROR (Some (MsgOfError INVALID_WS_PARAMETERS)));
             ESockClose 1] init) ∧
  (present (a_id q2) ∧ present (a_token q2) ∧ present (a_key q2) ∧
   a_key q2 ≠ Some (key sample_config)) ∧
  _onSocketConnection sample_config true JS 1 q2 "k3x9q" init =
    (Normal tt,
     logged [ESend 1 (Frame ERROR (Some (MsgOfError INVALID_KEY)));
             ESockClose 1] init).
Proof.
  cbn zeta.
  assert (absent (None : option string)) as Habs by (by left).
  assert (∀ s : string, s ≠ EmptyString → present (Some s)) as Hpres by (by eexists).
  assert (Some "guess" ≠ Some "peerjs") as Hkey by done.
  split; [cbn; auto|]. split.
  { apply (gate_rejects_without_registry_access sample_config true JS 1
             (AuthParams (Some "A") None (Some "peerjs")) "k3x9q" init).
    cbn. auto. }
  split; [by repeat split; try apply Hpres|].
  by apply (gate_rejects_without_registry_access sample_config true JS 1
              (AuthParams (Some "A") (Some "t1") (Some "guess")) "k3x9q" init);
    try apply Hpres.
Defined.

Lemma registration_respects_ceiling_witness :
  let w := world_A tight_config false "t1" in
  ((Z.of_nat (size (w_realm w)) >= concurrent_limit tight_config)%Z ∧
   _registerClient tight_config 2 "B" "t2" w =
     (Normal tt,
      logged [ERealm GetClientsIds;
              ESend 2 (Frame ERROR (Some (MsgOfError CONNECTION_LIMIT_EXCEED)));
              ESockClose 2] w)) ∧
  ((Z.of_nat (size (w_realm init)) < concurrent_limit tight_config)%Z ∧
   w_clients (_registerClient tight_config 2 "B" "t2" init).2 =
     [MkClient "B" "t2" (Some 2)] ∧
   w_realm (_registerClient tight_config 2 "B" "t2" init).2 = <["B" := 0]> ∅ ∧
   w_trace (_registerClient tight_config 2 "B" "t2" init).2 =
     [ERealm GetClientsIds; ERealm (SetClient 0 "B");
      ESend 2 (Frame OPEN None); EEmit (EvConnection 0)]).
Proof.
  cbn zeta.
  assert (Z.of_nat (size (w_realm (world_A tight_config false "t1"))) >=
          concurrent_limit tight_config)%Z as Hfull by (vm_compute; discriminate).
  assert (Z.of_nat (size (w_realm init)) < concurrent_limit tight_config)%Z
    as Hroom by (vm_compute; reflexivity).
  split; (split; [done|]).
  - by apply (registration_respects_ceiling tight_config 2 "B" "t2"
                (world_A tight_config false "t1")).
  - destruct (registration_respects_ceiling tight_config 2 "B" "t2" init)
      as [_ Hok].
    destruct (Hok Hroom) as (_ & H1 & H2 & _ & _ & H3). done.
Defined.

Lemma inbound_data_relayed_with_session_src_witness :
  let w := world_A sample_config false "t1" in
  w_clients w !! 0 = Some (MkClient "A" "t1" (Some 1)) ∧
  sample_parse "{}" = Some (JObj []) ∧ structured (JObj []) ∧
  sample_parse "{" = None ∧
  message_listener sample_parse 1 0 "{}" w =
    (Normal tt, logged [EEmit (EvMessage 0 (JObj [("src", JStr "A")]))] w) ∧
  message_listener sample_parse 1 0 "{" w =
    (Normal tt, logged [EEmit (EvError (SyntaxError "{"))] w).
Proof.
  cbn zeta.
  assert (w_clients (world_A sample_config false "t1") !! 0 =
          Some (MkClient "A" "t1" (Some 1))) as Ho by (vm_compute; reflexivity).
  destruct (inbound_data_relayed_with_session_src sample_parse 1 0
              (MkClient "A" "t1" (Some 1)) "{}"
              (world_A sample_config false "t1") Ho) as (Hobj & _).
  destruct (inbound_data_relayed_with_session_src sample_parse 1 0
              (MkClient "A" "t1" (Some 1)) "{"
              (world_A sample_config false "t1") Ho) as (_ & Herr & _).
  destruct (Hobj (JObj []) eq_refl I) as (m & [= <-] & _ & _ & _ & Hrun).
  do 4 (split; [done|]). split; [exact Hrun | exact (Herr eq_refl)].
Defined.

Lemma transport_close_guarded_by_current_socket_witness :
  let w := world_A sample_config false "t1" in
  let o := MkClient "A" "t1" (Some 1) in
  w_clients w !! 0 = Some o ∧ c_socket o = Some 1 ∧ c_socket o ≠ Some 7 ∧
  w_realm (close_listener 1 0 w).2 = delete "A" (w_realm w) ∧
  w_trace (close_listener 1 0 w).2 =
    w_trace w ++ [ERealm (RemoveClientById "A"); EEmit (EvClose 0)] ∧
  close_listener 7 0 w = (Normal tt, w).
Proof.
  cbn zeta.
  assert (w_clients (world_A sample_config false "t1") !! 0 =
          Some (MkClient "A" "t1" (Some 1))) as Ho by (vm_compute; reflexivity).
  assert (Some 1 ≠ Some 7) as Hne by done.
  destruct (transport_close_guarded_by_current_socket sample_config 1 0
              (MkClient "A" "t1" (Some 1))
              (world_A sample_config false "t1") Ho) as [Hbound _].
  destruct (transport_close_guarded_by_current_socket sample_config 7 0
              (MkClient "A" "t1" (Some 1))
              (world_A sample_config false "t1") Ho) as [_ Hstale].
  destruct (Hbound eq_refl) as (_ & H1 & _ & H2 & _).
  do 3 (split; [done|]). split; [exact H1|]. split; [exact H2 | exact (Hstale Hne)].
Defined.

Lemma reconnect_token_on_free_identifier_is_stored_witness :
  let q := sample_query "A" RECONNECT in
  let w1 := (_onSocketConnection sample_config true JS 1 q "k3x9q" init).2 in
  let r2 := _onSocketConnection sample_config true TS 2 q "k3x9q" w1 in
  passes_gate sample_config q "A" RECONNECT ∧
  w_realm init !! "A" = None ∧
  (Z.of_nat (size (w_realm init)) < concurrent_limit sample_config)%Z ∧
  w_realm w1 !! "A" = Some 0 ∧
  w_clients w1 !! 0 = Some (MkClient "A" RECONNECT (Some 1)) ∧
  w_clients r2.2 !! 0 = Some (MkClient "A" RECONNECT None) ∧
  w_realm r2.2 !! "A" ≠ Some 0.
Proof.
  cbn zeta.
  assert (passes_gate sample_config (sample_query "A" RECONNECT) "A" RECONNECT)
    as Hq by (by apply sample_passes_gate).
  assert (Z.of_nat (size (w_realm init)) < concurrent_limit sample_config)%Z
    as Hroom by (vm_compute; reflexivity).
  do 3 (split; [done|]).
  destruct (reconnect_token_on_free_identifier_is_stored sample_config true JS 1
              (sample_query "A" RECONNECT) "k3x9q" "A" init Hq eq_refl Hroom)
    as [[Hreg Htok] Hnext].
  do 2 (split; [done|]).
  destruct (Hnext _ 0 _ TS 2 "k3x9q" Hreg Htok eq_refl)
    as (delta & _ & Hsock & Hgone & _).
  by split.
Defined.

Lemma builds_differ_only_in_replacement_token_witness :
  let w := world_A sample_config false "t1" in
  let q := sample_query "A" RECONNECT in
  let q' := sample_query "A" "t1" in
  let js := _onSocketConnection_js sample_config true 2 q w in
  let ts := _onSocketConnection_ts sample_config true 2 q "k3x9q" w in
  let c' := length (w_clients w) in
  reregisters sample_config q w "A" 0 (MkClient "A" "t1" (Some 1)) ∧
  w_clients js.2 !! c' = Some (MkClient "A" RECONNECT (Some 2)) ∧
  w_clients ts.2 !! c' = Some (MkClient "A" "k3x9q" (Some 2)) ∧
  ts.2 = with_clients (<[c' := MkClient "A" "k3x9q" (Some 2)]>) js.2 ∧
  (∀ id c o, ¬ reregisters sample_config q' w id c o) ∧
  _onSocketConnection_ts sample_config true 2 q' "k3x9q" w =
    _onSocketConnection_js sample_config true 2 q' w.
Proof.
  cbn zeta.
  assert (reregisters sample_config (sample_query "A" RECONNECT)
            (world_A sample_config false "t1") "A" 0
            (MkClient "A" "t1" (Some 1))) as Hre.
  { split; [by apply sample_passes_gate|].
    split; [vm_compute; reflexivity|]. split; [vm_compute; reflexivity|].
    split; vm_compute; reflexivity. }
  assert (∀ id c o, ¬ reregisters sample_config (sample_query "A" "t1")
                      (world_A sample_config false "t1") id c o) as Hno.
  { intros id c o ((_ & _ & Htok & _) & _). cbn in Htok. discriminate Htok. }
  split; [exact Hre|].
  destruct (builds_differ_only_in_replacement_token sample_config true 2
              (sample_query "A" RECONNECT) "k3x9q"
              (world_A sample_config false "t1")) as (_ & _ & Hpath).
  destruct (Hpath "A" 0 _ Hre) as (_ & _ & _ & Hjs & Hts & Hdiff).
  do 3 (split; [done|]). split; [exact Hno|].
  destruct (builds_differ_only_in_replacement_token sample_config true 2
              (sample_query "A" "t1") "k3x9q"
              (world_A sample_config false "t1")) as (_ & Hsame & _).
  exact (Hsame Hno).
Defined.

(** ** Scenarios of section 8 of the specification *)

(** A rebinds to socket 2; the delayed [close] of socket 1 changes nothing,
    the [close] of socket 2 removes A and emits [close] once. *)
Example stale_close_after_rebind :
  let run := handle sample_parse sample_config true in
  let w1 := world_A sample_config false "t1" in
  let w2 := (run (OnConnection TS 2 false (sample_query "A" "t1") "k3x9q") w1).2 in
  let w3 := (run (OnSocketClose 2) w2).2 in
  appended w1 w2 = [ERealm (GetClientById "A"); EEmit (EvConnection 0)] ∧
  run (OnSocketClose 1) w2 = (Normal tt, w2) ∧
  w_realm w3 !! "A" = None ∧
  appended w2 w3 = [ERealm (RemoveClientById "A"); EEmit (EvClose 0)].
Proof. vm_compute. repeat split; reflexivity. Qed.

(** A is evicted by a reconnect on socket 2 and registered again as a new
    object with a regenerated token; the delayed [close] of socket 1 changes
    nothing. *)
Example stale_close_after_eviction :
  let run := handle sample_parse sample_config true in
  let w1 := world_A sample_config false "t1" in
  let w2 := (run (OnConnection TS 2 false (sample_query "A" RECONNECT) "k3x9q") w1).2 in
  appended w1 w2 =
    [ERealm (GetClientById "A"); ESockClose 1;
     ERealm (ClearMessageQueue "A"); ERealm (RemoveClientById "A"); EOnClose 0;
     ERealm GetClientsIds; ERealm (SetClient 1 "A");
     ESend 2 (Frame OPEN None); EEmit (EvConnection 1)] ∧
  w_clients w2 = [MkClient "A" "t1" None; MkClient "A" "k3x9q" (Some 2)] ∧
  w_realm w2 !! "A" = Some 1 ∧
  run (OnSocketClose 1) w2 = (Normal tt, w2).
Proof. vm_compute. repeat split; reflexivity. Qed.

(** A payload that does not parse leaves session and socket alone. *)
Example malformed_payload_is_reported :
  let run := handle sample_parse sample_config true in
  let w1 := world_A sample_config false "t1" in
  run (OnSocketMessage 1 "{") w1 =
    (Normal tt, logged [EEmit (EvError (SyntaxError "{"))] w1).
Proof. vm_compute. reflexivity. Qed.

(** ** Boundary cases *)

(** C1 when the [close()] of A's socket raises: the
    eviction is complete, the handler ends with the exception, A is not
    registered again and no [connection] is emitted. *)

Lemma reconnect_close_error_skips_registration :
  let w := world_A sample_config true "t1" in
  let r := _onSocketConnection sample_config true TS 2
             (sample_query "A" RECONNECT) "k3x9q" w in
  (a_token (sample_query "A" RECONNECT) = Some RECONNECT ∧
   w_realm w !! "A" = Some 0 ∧
   w_clients w !! 0 = Some (MkClient "A" "t1" (Some 1)) ∧
   close_raises w 1 = true) ∧
  r.1 = Throw (CloseError 1) ∧
  w_realm r.2 !! "A" = None ∧
  length (w_clients r.2) = length (w_clients w) ∧
  count is_connection_event (appended w r.2) = 0.
Proof. vm_compute. repeat split; reflexivity. Qed.

(** C3 when the stored token is the reconnect token: A was registered
    with it and presents it again.  Stored and presented token are equal, yet a second
    session object appears, the first one loses its socket, the OPEN frame
    is sent and no [connection] is emitted for the first one. *)
Lemma stored_reconnect_token_is_not_rebound :
  let w := world_A sample_config false RECONNECT in
  let r := _onSocketConnection sample_config true TS 2
             (sample_query "A" RECONNECT) "k3x9q" w in
  (a_token (sample_query "A" RECONNECT) = Some RECONNECT ∧
   w_realm w !! "A" = Some 0 ∧
   w_clients w !! 0 = Some (MkClient "A" RECONNECT (Some 1))) ∧
  length (w_clients r.2) = S (length (w_clients w)) ∧
  w_clients r.2 !! 0 = Some (MkClient "A" RECONNECT None) ∧
  w_realm r.2 !! "A" = Some 1 ∧
  count is_open_frame (appended w r.2) = 1 ∧
  count (is_connection_event_of 0) (appended w r.2) = 0.
Proof. vm_compute. repeat split; reflexivity. Qed.

(** C10 at the ceiling: the ceiling is 1 and A is live; B, unknown so far,
    presents the reconnect token and is turned away. *)
Lemma reconnect_token_at_ceiling_registers_nothing :
  let w := world_A tight_config false "t1" in
  let r := _onSocketConnection tight_config true TS 2
             (sample_query "B" RECONNECT) "k3x9q" w in
  (a_token (sample_query "B" RECONNECT) = Some RECONNECT ∧
   w_realm w !! "B" = None) ∧
  w_realm r.2 !! "B" = None ∧
  w_clients r.2 = w_clients w ∧
  appended w r.2 =
    [ERealm (GetClientById "B"); ERealm GetClientsIds;
     ESend 2 (Frame ERROR (Some (MsgOfError CONNECTION_LIMIT_EXCEED)));
     ESockClose 2].
Proof. vm_compute. repeat split; reflexivity. Qed.

(** ** Further properties of the code *)

Section Constructor.

Lemma append_cons a s t : String a s +:+ t = String a (s +:+ t).
Proof. reflexivity. Qed.

Lemma append_empty_l t : EmptyString +:+ t = t.
Proof. reflexivity. Qed.

Lemma append_assoc s t u : (s +:+ t) +:+ u = s +:+ t +:+ u.
Proof.
  induction s as [|a s IH]; [done|]. by rewrite !append_cons, IH.
Qed.

Lemma endsWith_refl t : endsWith t t = true.
Proof. destruct t; simpl; try case_decide; done. Qed.

Lemma endsWith_append s t : endsWith (s +:+ t) t = true.
Proof.
  induction s as [|a s IH].
  - rewrite append_empty_l. apply endsWith_refl.
  - rewrite append_cons. simpl. by destruct (decide _).
Qed.

Lemma endsWith_suffix s t : endsWith s t = true → ∃ p, s = p +:+ t.
Proof.
  induction s as [|a s IH]; simpl.
  - destruct (decide (EmptyString = t)) as [<-|]; [|done]. by exists EmptyString.
  - destruct (decide (String a s = t)) as [<-|].
    + by exists EmptyString.
    + intros (p & ->)%IH. by exists (String a p).
Qed.

Lemma endsWith_no_suffix path :
  endsWith path "/" = false → ∀ p, path ≠ p +:+ "/".
Proof. intros Hend p ->. by rewrite endsWith_append in Hend. Qed.

(** X1. The path the constructor computes is a stem followed by "/peerjs",
    where the stem is the configured prefix without its final slash when
    the prefix ends in a slash, and the prefix itself when it does not:
    exactly one slash is put between prefix and suffix, also for the empty
    prefix. *)
Theorem server_path_one_slash_before_suffix path :
  ∃ stem, server_path path = stem +:+ "/peerjs" ∧
          (path = stem +:+ "/" ∨ path = stem ∧ ∀ p, path ≠ p +:+ "/") ∧
          endsWith (server_path path) "/peerjs" = true.
Proof.
  unfold server_path, WS_PATH. destruct (endsWith path "/") eqn:Hend.
  - apply endsWith_suffix in Hend as (stem & ->). exists stem.
    rewrite !append_assoc. split; [done|]. split; [by left|].
    apply endsWith_append.
  - exists path. split; [done|]. split; [|apply endsWith_append].
    right. split; [done|]. by apply endsWith_no_suffix.
Qed.

(** X2. A prefix and the same prefix with a slash appended give the same
    server path. *)
Theorem server_path_ignores_trailing_slash path :
  endsWith path "/" = false →
  server_path (path +:+ "/") = server_path path.
Proof.
  intros Hend. unfold server_path. rewrite Hend, endsWith_append.
  by rewrite !append_assoc.
Qed.

End Constructor.

Section Outcomes.

Variable JSON_parse : string → option jsval.
Variable config : CustomConfig.
Variable onClose : bool.

Lemma logged_logged t1 t2 w : logged t2 (logged t1 w) = logged (t1 ++ t2) w.
Proof. unfold logged, with_trace. cbn. by rewrite app_assoc. Qed.

Lemma connection_outcome v socket q rnd w :
  registry_inv config w →
  attempt_outcome config onClose v socket q rnd w
    (_onSocketConnection config onClose v socket q rnd w).
Proof.
  intros Hinv.
  destruct (falsy (a_id q) || falsy (a_token q) || falsy (a_key q)) eqn:Hf.
  { rewrite connection_gate_params, sendErrorAndClose_run by done.
    apply gate_failed. by left. }
  destruct (decide (a_key q = Some (key config))) as [Hkey|Hkey]; cycle 1.
  { rewrite connection_gate_key, sendErrorAndClose_run by done.
    apply gate_failed. by right. }
  pose proof (gate_passed _ q Hf Hkey) as Hq.
  set (id := default EmptyString (a_id q)) in *.
  set (token := default EmptyString (a_token q)) in *.
  destruct (w_realm w !! id) as [c|] eqn:Hc; cycle 1.
  { erewrite connection_fresh by done.
    destruct (decide (Z.of_nat (size (w_realm w)) >= concurrent_limit config)%Z).
    - rewrite registerClient_full by done. rewrite logged_logged.
      exact (ceiling_reached config onClose v socket q rnd w id token Hq Hc g).
    - rewrite registerClient_ok by (cbn; lia).
      eapply newly_registered; [done | done | lia]. }
  destruct (inv_entry _ _ Hinv _ _ Hc) as (o & Ho & Ho').
  destruct (decide (token = RECONNECT)) as [Htok|Htok].
  - rewrite Htok in Hq. erewrite connection_evict by done. cbn zeta.
    assert (Z.of_nat (size (w_realm (evicted onClose id c o
              (logged [ERealm (GetClientById id)] w)))) <
            concurrent_limit config)%Z as Hroom
      by (apply evicted_room; [by apply inv_logged | done]).
    destruct (optional_close_completion w (c_socket o)) as [[]|e] eqn:Hclose.
    + rewrite registerClient_ok by done. by eapply evicted_and_registered.
    + destruct (c_socket o) as [s|] eqn:Hs; [|done].
      cbn in Hclose. unfold close_completion in Hclose.
      destruct (close_raises w s) eqn:Hraise; [|done].
      injection Hclose as <-. by eapply eviction_aborted.
  - destruct (decide (token = c_token o)).
    + erewrite connection_rebind by done. by eapply rebound.
    + erewrite connection_reject by done. by eapply token_rejected.
Qed.

End Outcomes.

Section Sessions.

Variable JSON_parse : string → option jsval.
Variable config : CustomConfig.
Variable onClose : bool.

Lemma sinv_logged t w : session_inv w → session_inv (logged t w).
Proof. by intros []. Qed.

Lemma unused_logged socket t w : unused socket w → unused socket (logged t w).
Proof. by intros []. Qed.

Lemma sinv_evicted id c o w :
  w_realm w !! id = Some c → w_clients w !! c = Some o →
  session_inv w → session_inv (evicted onClose id c o w).
Proof.
  intros Hc Ho [He Hs Hw]. pose proof (lookup_lt_Some _ _ _ Ho) as Hlt.
  split; open_worlds.
  - intros i c' [Hne Hi]%lookup_delete_Some.
    destruct (He i c' Hi) as (Hi' & o' & s & Ho' & Hid & Hsock).
    split; [done|]. exists o', s.
    destruct (He id c Hc) as (_ & o0 & _ & Ho0 & Hid0 & _).
    rewrite list_lookup_insert_ne; [done|]. intros ->. congruence.
  - intros c' o' s Ho' Hsock. destruct (decide (c' = c)) as [->|Hne].
    + rewrite list_lookup_insert_eq in Ho' by done. by injection Ho' as <-.
    + rewrite list_lookup_insert_ne in Ho' by done. eauto.
  - intros s sk Hsk. rewrite length_insert. eauto.
Qed.

Lemma unused_evicted socket id c o w :
  w_clients w !! c = Some o →
  unused socket w → unused socket (evicted onClose id c o w).
Proof.
  intros Ho (Hfree & Hc & Hm). pose proof (lookup_lt_Some _ _ _ Ho) as Hlt.
  split; [|done]. open_worlds. intros c' o' Ho'.
  destruct (decide (c' = c)) as [->|Hne].
  - rewrite list_lookup_insert_eq in Ho' by done. by injection Ho' as <-.
  - rewrite list_lookup_insert_ne in Ho' by done. eauto.
Qed.

Lemma unused_known socket w s sk :
  unused socket w → session_inv w →
  w_sockets w !! s = Some sk → sk_on_close sk ≠ [] → s ≠ socket.
Proof.
  intros (_ & Hc & _) _ Hsk Hne ->. unfold socket_listeners in Hc.
  rewrite Hsk in Hc. done.
Qed.

Lemma sinv_registered socket id token w :
  id ≠ EmptyString → unused socket w →
  session_inv w → session_inv (registered socket id token w).
Proof.
  intros Hid Hun [He Hs Hw]. pose proof Hun as (Hfree & Hc & Hm).
  split; open_worlds.
  - intros i c. destruct (decide (id = i)) as [<-|Hne].
    + rewrite lookup_insert_eq. intros [= <-]. split; [done|].
      eexists _, socket. by rewrite lookup_app_r, Nat.sub_diag.
    + rewrite lookup_insert_ne by done. intros Hi.
      destruct (He i c Hi) as (Hi' & o' & s & Ho' & Hid' & Hsock).
      split; [done|]. exists o', s.
      by rewrite lookup_app_l by (by eapply lookup_lt_Some).
  - intros c o s Ho Hsock.
    destruct (decide (c < length (w_clients w))) as [Hlt|Hge].
    + rewrite lookup_app_l in Ho by done.
      destruct (Hs c o s Ho Hsock) as (sk & Hsk & Hcl & Hmsg).
      exists sk. rewrite lookup_insert_ne; [done|].
      intros <-. by eapply Hfree.
    + rewrite lookup_app_r in Ho by lia.
      destruct (c - length (w_clients w)) as [|n] eqn:Hn; [|by destruct n].
      assert (c = length (w_clients w)) as -> by lia.
      injection Ho as <-. injection Hsock as <-.
      rewrite lookup_insert_eq. eexists. split; [done|].
      unfold listening. cbn. by rewrite Hc, Hm.
  - intros s sk. rewrite length_app. cbn.
    destruct (decide (socket = s)) as [<-|Hne].
    + rewrite lookup_insert_eq. intros [= <-]. unfold listening. cbn.
      rewrite Hc, Hm. split; [done|]. right. eexists. split; [done|]. lia.
    + rewrite lookup_insert_ne by done. intros Hsk.
      destruct (Hw s sk Hsk) as (Heq & [Hnil|(c & Hone & Hlt)]).
      * split; [done|]. by left.
      * split; [done|]. right. exists c. split; [done|]. lia.
Qed.

Lemma sinv_attached socket c o w :
  w_clients w !! c = Some o → unused socket w →
  session_inv w → session_inv (attached socket c o w).
Proof.
  intros Ho Hun [He Hs Hw]. pose proof Hun as (Hfree & Hc & Hm).
  pose proof (lookup_lt_Some _ _ _ Ho) as Hlt.
  split; open_worlds.
  - intros i c' Hi.
    destruct (He i c' Hi) as (Hi' & o' & s & Ho' & Hid' & Hsock).
    split; [done|]. destruct (decide (c' = c)) as [->|Hne].
    + rewrite list_lookup_insert_eq by done. eexists _, socket.
      split; [done|]. split; [|done]. cbn. congruence.
    + rewrite list_lookup_insert_ne by done. eauto.
  - intros c' o' s Ho' Hsock. destruct (decide (c' = c)) as [->|Hne].
    + rewrite list_lookup_insert_eq in Ho' by done. injection Ho' as <-.
      injection Hsock as <-. rewrite lookup_insert_eq. eexists.
      split; [done|]. unfold listening. cbn. by rewrite Hc, Hm.
    + rewrite list_lookup_insert_ne in Ho' by done.
      destruct (Hs c' o' s Ho' Hsock) as (sk & Hsk & Hcl & Hmsg).
      exists sk. rewrite lookup_insert_ne; [done|].
      intros <-. by eapply Hfree.
  - intros s sk. rewrite length_insert.
    destruct (decide (socket = s)) as [<-|Hne].
    + rewrite lookup_insert_eq. intros [= <-]. unfold listening. cbn.
      rewrite Hc, Hm. split; [done|]. right. by exists c.
    + rewrite lookup_insert_ne by done. eauto.
Qed.

Lemma sinv_closed c o w : session_inv w → session_inv (closed c o w).
Proof.
  intros [He Hs Hw]. split; open_worlds; [|done..].
  intros i c' [_ Hi]%lookup_delete_Some. eauto.
Qed.

Lemma sinv_outcome v socket q rnd w r :
  attempt_outcome config onClose v socket q rnd w r →
  unused socket w → session_inv w → session_inv r.2.
Proof.
  intros Hout Hun Hinv. destruct Hout; cbn [snd].
  - by apply sinv_logged.
  - by apply sinv_logged.
  - by apply sinv_logged.
  - apply sinv_registered; [apply H | by apply unused_logged | by apply sinv_logged].
  - apply sinv_attached; [done | by apply unused_logged | by apply sinv_logged].
  - apply sinv_evicted; [done | done | by apply sinv_logged].
  - apply sinv_registered; [apply H | |].
    + apply unused_evicted; [done | by apply unused_logged].
    + apply sinv_evicted; [done | done | by apply sinv_logged].
Qed.

Lemma sinv_new_socket socket raises w :
  w_sockets w !! socket = None → session_inv w →
  let w0 := with_sockets (<[socket := MkSocket raises [] []]>) w in
  session_inv w0 ∧ unused socket w0.
Proof.
  intros Hfresh [He Hs Hw]. cbn zeta. split; [split|]; open_worlds.
  - done.
  - intros c o s Ho Hsock. destruct (Hs c o s Ho Hsock) as (sk & Hsk & ?).
    exists sk. rewrite lookup_insert_ne; [done|]. intros <-. congruence.
  - intros s sk. destruct (decide (socket = s)) as [<-|Hne].
    + rewrite lookup_insert_eq. intros [= <-]. cbn. split; [done|]. by left.
    + rewrite lookup_insert_ne by done. eauto.
  - unfold unused, socket_listeners. open_worlds. rewrite lookup_insert_eq. cbn.
    split; [|done]. intros c o Ho Hsock.
    destruct (Hs c o _ Ho Hsock) as (sk & Hsk & _). congruence.
Qed.

Lemma close_listener_sinv socket c w :
  session_inv w → session_inv (close_listener socket c w).2.
Proof.
  intros Hinv. destruct (w_clients w !! c) as [o|] eqn:Hc.
  - destruct (decide (c_socket o = Some socket)).
    + erewrite close_listener_bound by done. by apply sinv_closed.
    + by erewrite close_listener_stale.
  - by rewrite close_listener_dangling.
Qed.

Lemma message_listener_sinv socket c data w :
  session_inv w → session_inv (message_listener JSON_parse socket c data w).2.
Proof.
  intros Hinv. destruct (w_clients w !! c) as [o|] eqn:Hc.
  - erewrite message_listener_run by done. by apply sinv_logged.
  - rewrite message_listener_dangling by done. by apply sinv_logged.
Qed.

Lemma init_sinv : session_inv init.
Proof. split; cbn; intros *; by rewrite ?lookup_empty, ?lookup_nil. Qed.

Lemma handle_sinv e w :
  registry_inv config w → enabled e w → session_inv w →
  session_inv (handle JSON_parse config onClose e w).2.
Proof.
  intros Hreg Hen Hinv.
  destruct e as [v socket raises q rnd|socket|socket data|id m]; cbn.
  - unfold bind. cbn in Hen.
    destruct (sinv_new_socket socket raises w Hen Hinv) as [Hinv0 Hun].
    eapply sinv_outcome; [|done..]. apply connection_outcome. by destruct Hreg.
  - by apply run_listeners_inv; [intros; apply close_listener_sinv|].
  - by apply run_listeners_inv; [intros; apply message_listener_sinv|].
  - by destruct Hinv.
Qed.

Lemma reachable_sinv w :
  reachable JSON_parse config onClose w → session_inv w.
Proof.
  induction 1 as [|w e Hreach IH Hen]; [apply init_sinv|].
  apply handle_sinv; [by eapply reachable_inv | done | done].
Qed.

End Sessions.

Section Composition.

Variable JSON_parse : string → option jsval.
Variable config : CustomConfig.
Variable onClose : bool.

Lemma appended_trace w w' t : w_trace w' = w_trace w ++ t → appended w w' = t.
Proof. intros Ht. unfold appended. by rewrite Ht, drop_app_length. Qed.

(** X3. Registering a free identifier and then running the [close]
    listener of the socket it was registered on leaves the registry as it
    was before the registration. *)
Theorem register_then_close_restores_registry socket id token w :
  w_realm w !! id = None →
  (Z.of_nat (size (w_realm w)) < concurrent_limit config)%Z →
  let w1 := (_registerClient config socket id token w).2 in
  let r := close_listener socket (length (w_clients w)) w1 in
  r.1 = Normal tt ∧
  w_realm r.2 = w_realm w ∧
  appended w1 r.2 = [ERealm (RemoveClientById id);
                     EEmit (EvClose (length (w_clients w)))].
Proof.
  intros Hfree Hroom. cbn zeta. rewrite registerClient_ok by done.
  erewrite close_listener_bound; cycle 1.
  - open_worlds. by rewrite lookup_app_r, Nat.sub_diag.
  - done.
  - split; [done|]. split.
    + open_worlds. by apply delete_insert_id.
    + by apply appended_trace.
Qed.

(** X4. Once the eviction block has run on a session, its socket is null
    and the [close] listener of any socket installed for that session does
    nothing. *)
Theorem close_after_eviction_is_ignored socket id c o w :
  w_clients w !! c = Some o →
  let w1 := (evict onClose id c w).2 in
  w_clients w1 !! c = Some (MkClient (c_id o) (c_token o) None) ∧
  close_listener socket c w1 = (Normal tt, w1).
Proof.
  intros Ho. cbn zeta. erewrite evict_run by done. cbn [snd].
  assert (w_clients (evicted onClose id c o w) !! c =
          Some (MkClient (c_id o) (c_token o) None)) as Hc.
  { open_worlds. apply list_lookup_insert_eq. by eapply lookup_lt_Some. }
  split; [done|]. by eapply close_listener_stale.
Qed.

(** X5. After [_configureWS] has bound a session to a new socket, the
    [close] listener of another socket installed for the session does
    nothing, and the one of the new socket removes the session's identifier
    and emits [close]. *)
Theorem close_after_rebind old new c o w :
  w_clients w !! c = Some o → old ≠ new →
  let w1 := (_configureWS new c w).2 in
  let r := close_listener new c w1 in
  close_listener old c w1 = (Normal tt, w1) ∧
  r.1 = Normal tt ∧
  w_realm r.2 = delete (c_id o) (w_realm w) ∧
  appended w1 r.2 = [ERealm (RemoveClientById (c_id o)); EEmit (EvClose c)].
Proof.
  intros Ho Hne. cbn zeta. erewrite configureWS_run by done. cbn [snd].
  assert (w_clients (attached new c o w) !! c =
          Some (MkClient (c_id o) (c_token o) (Some new))) as Hc.
  { open_worlds. apply list_lookup_insert_eq. by eapply lookup_lt_Some. }
  split.
  - eapply close_listener_stale; [done|]. cbn. congruence.
  - erewrite close_listener_bound by done. split; [done|]. split; [done|].
    by apply appended_trace.
Qed.

(** X6. [_configureWS] closes nothing and removes no listener: another
    socket keeps its listeners, and a message arriving on a previous socket
    of the session is still relayed under the session's identifier. *)
Theorem rebind_leaves_previous_socket_wired old new c o sk data w :
  w_clients w !! c = Some o → w_sockets w !! old = Some sk → old ≠ new →
  let w1 := (_configureWS new c w).2 in
  w_sockets w1 !! old = Some sk ∧
  appended w w1 = [EEmit (EvConnection c)] ∧
  message_listener JSON_parse old c data w1 =
    (Normal tt, logged [EEmit (relayed JSON_parse c (c_id o) data)] w1).
Proof.
  intros Ho Hsk Hne. cbn zeta. erewrite configureWS_run by done. cbn [snd].
  split; [open_worlds; by rewrite lookup_insert_ne|].
  split; [by apply appended_trace|].
  rewrite (message_listener_run JSON_parse old c
             (MkClient (c_id o) (c_token o) (Some new))); [done|].
  open_worlds. apply list_lookup_insert_eq. by eapply lookup_lt_Some.
Qed.

(** *** Property assignment *)

Lemma put_property_twice k v1 v2 ps :
  put_property k v2 (put_property k v1 ps) = put_property k v2 ps.
Proof.
  induction ps as [|[k' v'] ps IH]; cbn.
  - by rewrite decide_True.
  - destruct (decide (k' = k)) as [->|Hne]; cbn.
    + by rewrite decide_True.
    + by rewrite decide_False, IH.
Qed.

Lemma put_property_keys k v ps :
  (put_property k v ps).*1 =
    if decide (k ∈ ps.*1) then ps.*1 else ps.*1 ++ [k].
Proof.
  induction ps as [|[k' v'] ps IH]; cbn.
  - rewrite decide_False; [done|]. by intros ?%not_elem_of_nil.
  - destruct (decide (k' = k)) as [->|Hne]; cbn.
    + rewrite decide_True; [done|]. constructor.
    + rewrite IH. destruct (decide (k ∈ ps.*1)) as [Hin|Hout].
      * rewrite decide_True; [done|]. by constructor.
      * rewrite decide_False; [done|]. by intros [?|?]%elem_of_cons.
Qed.

(** X7. The last assignment to [src] wins: assigning [b] to a message
    that was already assigned [a] gives what assigning [b] alone gives. *)
Theorem assign_src_last_write_wins v a b m :
  assign_src v a = Normal m → assign_src m b = assign_src v b.
Proof.
  destruct v as [| | | |es ps|ps]; cbn; try done; intros [= <-]; cbn.
  all: by rewrite put_property_twice.
Qed.

(** X8. The assignment keeps the keys of the payload in place: [src]
    stays where it was, or goes last when the payload had none. *)
Theorem assign_src_keeps_key_order v id m :
  assign_src v id = Normal m →
  (properties m).*1 =
    if decide ("src" ∈ (properties v).*1) then (properties v).*1
    else (properties v).*1 ++ ["src"].
Proof.
  destruct v as [| | | |es ps|ps]; cbn; try done; intros [= <-]; cbn.
  all: apply put_property_keys.
Qed.

End Composition.

Section Reachable.

Variable JSON_parse : string → option jsval.
Variable config : CustomConfig.
Variable onClose : bool.

(** X9. In every reachable world the registry is empty or holds at most
    [concurrent_limit] sessions. *)
Theorem live_sessions_never_exceed_ceiling w :
  reachable JSON_parse config onClose w →
  size (w_realm w) = 0 ∨
  (Z.of_nat (size (w_realm w)) ≤ concurrent_limit config)%Z.
Proof.
  intros Hreach%reachable_inv. pose proof (inv_bound _ _ Hreach). lia.
Qed.

(** X10. In every reachable world a registry entry is filed under the
    identifier of its session object, that identifier is not empty, and the
    session holds a socket on which exactly its own [close] and [message]
    listeners are installed. *)
Theorem registered_session_has_identifier_and_socket w i c :
  reachable JSON_parse config onClose w →
  w_realm w !! i = Some c →
  i ≠ EmptyString ∧
  ∃ o s sk, w_clients w !! c = Some o ∧ c_id o = i ∧ c_socket o = Some s ∧
            w_sockets w !! s = Some sk ∧
            sk_on_close sk = [c] ∧ sk_on_message sk = [c].
Proof.
  intros Hreach%reachable_sinv Hi.
  destruct (sinv_entry _ Hreach i c Hi) as (Hne & o & s & Ho & Hid & Hs).
  destruct (sinv_socket _ Hreach c o s Ho Hs) as (sk & Hsk & Hcl & Hmsg).
  split; [done|]. by exists o, s, sk.
Qed.

(** X11. In every reachable world two session objects that hold the same
    socket are the same object. *)
Theorem sessions_never_share_a_socket w c1 c2 o1 o2 s :
  reachable JSON_parse config onClose w →
  w_clients w !! c1 = Some o1 → w_clients w !! c2 = Some o2 →
  c_socket o1 = Some s → c_socket o2 = Some s →
  c1 = c2.
Proof.
  intros Hreach%reachable_sinv Ho1 Ho2 Hs1 Hs2.
  destruct (sinv_socket _ Hreach c1 o1 s Ho1 Hs1) as (sk1 & Hsk1 & Hcl1 & _).
  destruct (sinv_socket _ Hreach c2 o2 s Ho2 Hs2) as (sk2 & Hsk2 & Hcl2 & _).
  congruence.
Qed.

(** X12. The [close] event of a socket in a reachable world: when a session
    holds the socket, the entry of that session's identifier is removed and
    [close] is emitted once for it, the session objects staying as they
    are; when no session holds the socket, the event changes nothing.  The
    dispatch never raises. *)
Theorem socket_close_event_removes_its_session_only w s :
  reachable JSON_parse config onClose w →
  let r := handle JSON_parse config onClose (OnSocketClose s) w in
  (∀ c o, w_clients w !! c = Some o → c_socket o = Some s →
     r.1 = Normal tt ∧
     w_realm r.2 = delete (c_id o) (w_realm w) ∧
     w_clients r.2 = w_clients w ∧
     appended w r.2 = [ERealm (RemoveClientById (c_id o)); EEmit (EvClose c)]) ∧
  ((∀ c o, w_clients w !! c = Some o → c_socket o ≠ Some s) →
     r = (Normal tt, w)).
Proof.
  intros Hreach%reachable_sinv. cbn zeta. cbn [handle]. split.
  - intros c o Ho Hs.
    destruct (sinv_socket _ Hreach c o s Ho Hs) as (sk & Hsk & Hcl & _).
    unfold socket_listeners. rewrite Hsk. cbn. rewrite Hcl. cbn. unfold bind.
    erewrite close_listener_bound by done. cbn.
    repeat split; try done. by apply appended_trace.
  - intros Hnone. unfold socket_listeners.
    destruct (w_sockets w !! s) as [sk|] eqn:Hsk; cbn; [|done].
    destruct (sinv_wired _ Hreach s sk Hsk) as (_ & [->|(c & -> & Hlt)]); [done|].
    cbn. unfold bind.
    destruct (lookup_lt_is_Some_2 _ _ Hlt) as [o Ho].
    erewrite close_listener_stale; [done | done |]. by eapply Hnone.
Qed.

(** X13. The [message] event of a socket in a reachable world never raises
    and changes nothing but the log, which grows by at most one emission,
    made for one session. *)
Theorem socket_message_event_only_extends_log w s data :
  reachable JSON_parse config onClose w →
  let r := handle JSON_parse config onClose (OnSocketMessage s data) w in
  r = (Normal tt, w) ∨
  ∃ c o, w_clients w !! c = Some o ∧
         r = (Normal tt, logged [EEmit (relayed JSON_parse c (c_id o) data)] w).
Proof.
  intros Hreach%reachable_sinv. cbn zeta. cbn [handle]. unfold socket_listeners.
  destruct (w_sockets w !! s) as [sk|] eqn:Hsk; cbn; [|by left].
  destruct (sinv_wired _ Hreach s sk Hsk) as (Heq & [Hnil|(c & Hc & Hlt)]).
  - rewrite <- Heq, Hnil. by left.
  - rewrite <- Heq, Hc. cbn. unfold bind.
    destruct (lookup_lt_is_Some_2 _ _ Hlt) as [o Ho].
    right. exists c, o. split; [done|]. by erewrite message_listener_run.
Qed.

End Reachable.

Section Attempts.

Variable JSON_parse : string → option jsval.
Variable config : CustomConfig.
Variable onClose : bool.

Lemma outcome_identity v socket q rnd w r c o :
  registry_inv config w →
  attempt_outcome config onClose v socket q rnd w r →
  w_clients w !! c = Some o →
  ∃ o', w_clients r.2 !! c = Some o' ∧ c_id o' = c_id o ∧ c_token o' = c_token o ∧
        (c_socket o' = c_socket o ∨ c_socket o' = None ∨
         c_socket o' = Some socket ∧
         a_token q = Some (c_token o) ∧ c_token o ≠ RECONNECT ∧
         w_realm w !! c_id o = Some c ∧ a_id q = Some (c_id o)).
Proof.
  intros Hinv Hout Ho. pose proof (lookup_lt_Some _ _ _ Ho) as Hlt.
  assert (∀ c0 o0 s,
    w_clients w !! c0 = Some o0 →
    ∃ o', <[c0 := MkClient (c_id o0) (c_token o0) s]> (w_clients w) !! c = Some o' ∧
          c_id o' = c_id o ∧ c_token o' = c_token o ∧
          (c_socket o' = c_socket o ∨ c_socket o' = s ∧ c0 = c ∧ o0 = o))
    as Hset.
  { intros c0 o0 s Ho0. destruct (decide (c = c0)) as [->|Hne].
    - rewrite list_lookup_insert_eq by done. eexists. split; [done|].
      assert (o0 = o) as -> by congruence. cbn.
      split; [done|]. split; [done|]. by right.
    - rewrite list_lookup_insert_ne by done. exists o.
      do 3 (split; [done|]). by left. }
  destruct Hout as [e He|id token c0 o0 Hq Hc0 Ho0 Hne Htok|id token Hq Hfree Hfull
                   |id token Hq Hfree Hroom|id token c0 o0 Hq Hc0 Ho0 Hne Htok
                   |id c0 o0 s Hq Hc0 Ho0 Hs Hraise|id c0 o0 Hq Hc0 Ho0 Hclose];
    cbn [snd]; open_worlds.
  - exists o. do 3 (split; [done|]). by left.
  - exists o. do 3 (split; [done|]). by left.
  - exists o. do 3 (split; [done|]). by left.
  - rewrite lookup_app_l by done. exists o. do 3 (split; [done|]). by left.
  - destruct (Hset c0 o0 (Some socket) Ho0)
      as (o' & Ho' & Hi & Ht & [Hs|(Hs & -> & ->)]);
      exists o'; do 3 (split; [done|]); [by left|].
    right. right. split; [done|].
    destruct Hq as (Hid & _ & Hqtok & _).
    destruct (inv_entry _ _ Hinv _ _ Hc0) as (o1 & Ho1 & Hid1).
    assert (o1 = o) as -> by congruence.
    rewrite Hid1, <- Htok. auto.
  - destruct (Hset c0 o0 None Ho0) as (o' & Ho' & Hi & Ht & [Hs'|(Hs' & -> & ->)]);
      exists o'; do 3 (split; [done|]); [by left | right; by left].
  - rewrite lookup_app_l by (by rewrite length_insert).
    destruct (Hset c0 o0 None Ho0) as (o' & Ho' & Hi & Ht & [Hs'|(Hs' & -> & ->)]);
      exists o'; do 3 (split; [done|]); [by left | right; by left].
Qed.

Lemma close_listener_clients socket c w :
  w_clients (close_listener socket c w).2 = w_clients w.
Proof.
  destruct (w_clients w !! c) as [o|] eqn:Hc.
  - destruct (decide (c_socket o = Some socket)).
    + by erewrite close_listener_bound.
    + by erewrite close_listener_stale.
  - by rewrite close_listener_dangling.
Qed.

Lemma message_listener_clients socket c data w :
  w_clients (message_listener JSON_parse socket c data w).2 = w_clients w.
Proof.
  destruct (w_clients w !! c) as [o|] eqn:Hc.
  - by erewrite message_listener_run.
  - by rewrite message_listener_dangling.
Qed.

(** X14. No event removes a session object or changes its identifier or
    token: only its socket can change. *)
Theorem session_identity_is_immutable w e c o :
  reachable JSON_parse config onClose w →
  w_clients w !! c = Some o →
  ∃ o', w_clients (handle JSON_parse config onClose e w).2 !! c = Some o' ∧
        c_id o' = c_id o ∧ c_token o' = c_token o.
Proof.
  intros Hinv%reachable_inv Ho.
  destruct e as [v socket raises q rnd|socket|socket data|id m]; cbn [handle].
  - unfold bind. set (w0 := with_sockets _ w).
    assert (registry_inv config w0) as Hinv0 by by destruct Hinv.
    destruct (outcome_identity v socket q rnd w0 _ c o Hinv0
                (connection_outcome config onClose v socket q rnd w0 Hinv0) Ho)
      as (o' & Ho' & Hid & Htok & _).
    by exists o'.
  - exists o. split; [|done]. revert Ho.
    apply (run_listeners_inv
             (λ w', w_clients w !! c = Some o → w_clients w' !! c = Some o));
      [|done].
    intros c' w' Hw'. by rewrite close_listener_clients.
  - exists o. split; [|done]. revert Ho.
    apply (run_listeners_inv
             (λ w', w_clients w !! c = Some o → w_clients w' !! c = Some o));
      [|done].
    intros c' w' Hw'. by rewrite message_listener_clients.
  - by exists o.
Qed.

(** X15. When a connection attempt hands its socket to a session object
    that existed before, the attempt presented that session's stored token,
    which is not the reconnect token, under the session's identifier, and
    the session was the one registered under that identifier. *)
Theorem existing_session_rebinds_only_with_its_token v socket q rnd c o o' w :
  registry_inv config w →
  w_clients w !! c = Some o → c_socket o ≠ Some socket →
  let r := _onSocketConnection config onClose v socket q rnd w in
  w_clients r.2 !! c = Some o' → c_socket o' = Some socket →
  a_token q = Some (c_token o) ∧ c_token o ≠ RECONNECT ∧
  a_id q = Some (c_id o) ∧ w_realm w !! c_id o = Some c.
Proof.
  intros Hinv Ho Hfree. cbn zeta. intros Ho' Hs'.
  destruct (outcome_identity v socket q rnd w _ c o Hinv
              (connection_outcome config onClose v socket q rnd w Hinv) Ho)
    as (o1 & Ho1 & _ & _ & [Hs|[Hs|(_ & Htok & Hne & Hreg & Hid)]]).
  - congruence.
  - congruence.
  - done.
Qed.

End Attempts.

Section Logs.

Variable JSON_parse : string → option jsval.
Variable config : CustomConfig.
Variable onClose : bool.

Lemma count_close_calls s : count is_close_call (close_log s) ≤ 1.
Proof. destruct s; cbn; lia. Qed.

(** The log of an attempt, by outcome. *)
Lemma outcome_log v socket q rnd w r :
  attempt_outcome config onClose v socket q rnd w r →
  (∃ pre f, appended w r.2 = pre ++ [ESend socket f; ESockClose socket] ∧
            f_type f ≠ OPEN ∧ Forall (λ e, ∃ c, e = ERealm c) pre ∧
            r.1 = close_completion w socket ∧
            w_clients r.2 = w_clients w ∧ w_realm r.2 = w_realm w ∧
            w_queues r.2 = w_queues w ∧ w_sockets r.2 = w_sockets w) ∨
  (∃ id c, appended w r.2 = [ERealm (GetClientById id); EEmit (EvConnection c)] ∧
           r.1 = Normal tt ∧ a_token q ≠ Some RECONNECT ∧
           length (w_clients r.2) = length (w_clients w) ∧
           a_id q = Some id ∧ w_realm r.2 !! id = Some c ∧
           ∃ o, w_clients r.2 !! c = Some o ∧ c_socket o = Some socket) ∨
  (∃ id c s cb, appended w r.2 =
           [ERealm (GetClientById id)] ++ close_log s ++
           [ERealm (ClearMessageQueue id); ERealm (RemoveClientById id)] ++
           onClose_log cb c ∧
           (∃ s', r.1 = Throw (CloseError s')) ∧ a_token q = Some RECONNECT ∧
           a_id q = Some id ∧ w_realm r.2 !! id = None ∧
           length (w_clients r.2) = length (w_clients w)) ∨
  (∃ pre c id, appended w r.2 =
           pre ++ [ERealm GetClientsIds; ERealm (SetClient c id);
                   ESend socket (Frame OPEN None); EEmit (EvConnection c)] ∧
           r.1 = Normal tt ∧
           length (w_clients r.2) = S (length (w_clients w)) ∧
           a_id q = Some id ∧ w_realm r.2 !! id = Some c ∧
           (∃ o, w_clients r.2 !! c = Some o ∧ c_socket o = Some socket) ∧
           (pre = [ERealm (GetClientById id)] ∨
            a_token q = Some RECONNECT ∧
            ∃ s cb c0, pre = [ERealm (GetClientById id)] ++ close_log s ++
              [ERealm (ClearMessageQueue id); ERealm (RemoveClientById id)] ++
              onClose_log cb c0)).
Proof.
  intros Hout.
  destruct Hout as [e He|id token c0 o0 Hq Hc0 Ho0 Hne Htok|id token Hq Hfree Hfull
                   |id token Hq Hfree Hroom|id token c0 o0 Hq Hc0 Ho0 Hne Htok
                   |id c0 o0 s Hq Hc0 Ho0 Hs Hraise|id c0 o0 Hq Hc0 Ho0 Hclose];
    cbn [fst snd].
  - left. exists [], (Frame ERROR (Some (MsgOfError e))).
    split; [by apply appended_trace|]. by repeat split.
  - left. exists [ERealm (GetClientById id)], (Frame ID_TAKEN (Some (MsgText "ID is taken"))).
    split; [by apply appended_trace|]. repeat split; try done.
    repeat constructor. by eexists.
  - left. exists [ERealm (GetClientById id); ERealm GetClientsIds],
      (Frame ERROR (Some (MsgOfError CONNECTION_LIMIT_EXCEED))).
    split; [by apply appended_trace|]. repeat split; try done.
    repeat constructor; by eexists.
  - right. right. right. exists [ERealm (GetClientById id)], (length (w_clients w)), id.
    split; [apply appended_trace; open_worlds; by rewrite <- !app_assoc|].
    split; [done|]. open_worlds.
    split; [rewrite length_app; cbn; lia|].
    split; [apply Hq|]. split; [apply lookup_insert_eq|].
    split; [|by left]. eexists. by rewrite lookup_app_r, Nat.sub_diag.
  - right. left. exists id, c0.
    split; [apply appended_trace; open_worlds; by rewrite <- !app_assoc|].
    split; [done|]. split.
    + destruct Hq as (_ & _ & -> & _). congruence.
    + open_worlds. split; [by rewrite length_insert|].
      split; [apply Hq|]. split; [done|]. eexists.
      by rewrite list_lookup_insert_eq by (by eapply lookup_lt_Some).
  - right. right. left. exists id, c0, (c_socket o0), onClose.
    split; [apply appended_trace; open_worlds; by rewrite <- !app_assoc|].
    split; [by eexists|]. destruct Hq as (Hid & _ & Htok & _).
    do 2 (split; [done|]). open_worlds.
    split; [apply lookup_delete_eq | apply length_insert].
  - right. right. right.
    exists ([ERealm (GetClientById id)] ++ close_log (c_socket o0) ++
            [ERealm (ClearMessageQueue id); ERealm (RemoveClientById id)] ++
            onClose_log onClose c0), (length (w_clients w)), id.
    split.
    { apply appended_trace. open_worlds. rewrite length_insert.
      by rewrite <- !app_assoc. }
    split; [done|]. open_worlds. rewrite length_insert.
    split; [rewrite length_app, length_insert; cbn; lia|].
    split; [apply Hq|]. split; [apply lookup_insert_eq|]. split.
    + eexists. by rewrite lookup_app_r, length_insert, Nat.sub_diag
        by (by rewrite length_insert).
    + right. destruct Hq as (_ & _ & Htok & _). split; [done|]. by eexists _, _, _.
Qed.

Lemma count_realm_calls p pre :
  (∀ c, p (ERealm c) = false) →
  Forall (λ e, ∃ c, e = ERealm c) pre → count p pre = 0.
Proof.
  intros Hp. induction 1 as [|e pre [c ->] _ IH]; [done|].
  unfold count in *. cbn. by rewrite Hp.
Qed.

Lemma count_eviction_log p id s cb c :
  (∀ c, p (ERealm c) = false) → (∀ c, p (EOnClose c) = false) →
  count p ([ERealm (GetClientById id)] ++ close_log s ++
           [ERealm (ClearMessageQueue id); ERealm (RemoveClientById id)] ++
           onClose_log cb c) = count p (close_log s).
Proof.
  intros Hr Hc. rewrite !count_app, count_onClose_log_other by done.
  unfold count at 1 3. cbn. rewrite !Hr. cbn. lia.
Qed.

(** X16. A connection attempt sends the OPEN frame exactly when it creates
    a session object, and it creates at most one. *)
Theorem open_frame_exactly_when_session_created v socket q rnd w :
  registry_inv config w →
  let r := _onSocketConnection config onClose v socket q rnd w in
  count is_open_frame (appended w r.2) =
    length (w_clients r.2) - length (w_clients w) ∧
  length (w_clients w) ≤ length (w_clients r.2) ≤ S (length (w_clients w)).
Proof.
  intros Hinv. cbn zeta.
  destruct (outcome_log _ _ _ _ _ _
              (connection_outcome config onClose v socket q rnd w Hinv))
    as [(pre & f & -> & Hf & Hpre & _ & Hcl & _)
       |[(id & c & -> & _ & _ & Hlen & _)
        |[(id & c & s & cb & -> & _ & _ & _ & _ & Hlen)
         |(pre & c & id & -> & _ & Hlen & _ & _ & _ & Hpre)]]].
  - rewrite Hcl, count_app, count_realm_calls by done.
    unfold count. cbn. destruct f as [[] ?]; cbn; try done; lia.
  - rewrite Hlen. unfold count. cbn. lia.
  - rewrite Hlen, count_eviction_log, count_close_log by done. lia.
  - rewrite Hlen, count_app.
    assert (count is_open_frame pre = 0) as ->.
    { destruct Hpre as [->|(_ & s & cb & c0 & ->)]; [done|].
      by rewrite count_eviction_log, count_close_log. }
    unfold count. cbn. lia.
Qed.

(** X17. A connection attempt sends at most one frame, and only on its own
    socket; it calls [close()] at most once, and unless the attempt carries
    the reconnect token that call is on its own socket. *)
Theorem attempt_sends_on_its_own_socket_only v socket q rnd w :
  registry_inv config w →
  let r := _onSocketConnection config onClose v socket q rnd w in
  let delta := appended w r.2 in
  count is_send delta ≤ 1 ∧
  count (is_send_on socket) delta = count is_send delta ∧
  count is_close_call delta ≤ 1 ∧
  (a_token q ≠ Some RECONNECT →
   count (is_close_call_on socket) delta = count is_close_call delta).
Proof.
  intros Hinv. cbn zeta.
  destruct (outcome_log _ _ _ _ _ _
              (connection_outcome config onClose v socket q rnd w Hinv))
    as [(pre & f & -> & Hf & Hpre & _)
       |[(id & c & -> & _)
        |[(id & c & s & cb & -> & _ & Htok & _)
         |(pre & c & id & -> & _ & _ & _ & _ & _ & Hpre)]]].
  - rewrite !count_app, (count_realm_calls is_send),
      (count_realm_calls (is_send_on socket)),
      (count_realm_calls is_close_call),
      (count_realm_calls (is_close_call_on socket)) by done.
    unfold count. cbn. rewrite !bool_decide_eq_true_2 by done. cbn.
    by repeat split.
  - unfold count. cbn. repeat split; lia.
  - rewrite (count_eviction_log is_send),
      (count_eviction_log (is_send_on socket)),
      (count_eviction_log is_close_call),
      (count_close_log is_send), (count_close_log (is_send_on socket)) by done.
    pose proof (count_close_calls s). repeat split; try done; try lia; intros; congruence.
  - rewrite !count_app.
    assert (count is_send pre = 0 ∧ count (is_send_on socket) pre = 0 ∧
            count is_close_call pre ≤ 1 ∧
            (a_token q ≠ Some RECONNECT →
             count (is_close_call_on socket) pre = count is_close_call pre))
      as (-> & -> & Hcl & Himp).
    { destruct Hpre as [->|(Htok & s & cb & c0 & ->)];
        [repeat split; try done; cbn; lia|].
      rewrite (count_eviction_log is_send),
        (count_eviction_log (is_send_on socket)),
        (count_eviction_log is_close_call),
        (count_close_log is_send), (count_close_log (is_send_on socket))
        by done.
      pose proof (count_close_calls s). repeat split; try done; try lia; intros; congruence. }
    unfold count at 1 2 3 5 7. cbn. rewrite bool_decide_eq_true_2 by done. cbn.
    repeat split; try lia. intros Hne. specialize (Himp Hne). lia.
Qed.

(** X18. A connection attempt ends in one of three ways.  Refused: a frame
    other than OPEN is sent on the new socket, which is then closed, and
    sessions, registry and listeners are untouched.  Accepted: the handler
    completes normally, the identifier of the attempt is registered to a
    session that holds the new socket, and [connection] is emitted for it,
    once and last.  Aborted: the [close()] of the evicted session's socket
    raised on the reconnect path; the identifier is left unregistered,
    nothing was sent and no [connection] was emitted. *)
Theorem attempt_is_refused_accepted_or_aborted v socket q rnd w :
  registry_inv config w →
  let r := _onSocketConnection config onClose v socket q rnd w in
  let delta := appended w r.2 in
  (r.1 = close_completion w socket ∧
   (∃ pre f, delta = pre ++ [ESend socket f; ESockClose socket] ∧
             f_type f ≠ OPEN) ∧
   count is_connection_event delta = 0 ∧
   w_clients r.2 = w_clients w ∧ w_realm r.2 = w_realm w ∧
   w_sockets r.2 = w_sockets w) ∨
  (r.1 = Normal tt ∧
   (∃ id c o, a_id q = Some id ∧ w_realm r.2 !! id = Some c ∧
              w_clients r.2 !! c = Some o ∧ c_socket o = Some socket ∧
              last delta = Some (EEmit (EvConnection c))) ∧
   count is_connection_event delta = 1) ∨
  ((∃ s, r.1 = Throw (CloseError s)) ∧
   a_token q = Some RECONNECT ∧
   (∃ id, a_id q = Some id ∧ w_realm r.2 !! id = None) ∧
   count is_send delta = 0 ∧ count is_connection_event delta = 0).
Proof.
  intros Hinv. cbn zeta.
  destruct (outcome_log _ _ _ _ _ _
              (connection_outcome config onClose v socket q rnd w Hinv))
    as [(pre & f & -> & Hf & Hpre & Hr & Hcl & Hrl & _ & Hsk)
       |[(id & c & -> & Hr & _ & _ & Hid & Hreg & o & Ho & Hs)
        |[(id & c & s & cb & -> & Hr & Htok & Hid & Hreg & _)
         |(pre & c & id & -> & Hr & _ & Hid & Hreg & (o & Ho & Hs) & Hpre)]]].
  - left. split; [done|]. split; [by eexists _, _|].
    rewrite count_app, count_realm_calls by done. by repeat split.
  - right. left. split; [done|]. split; [|done]. by exists id, c, o.
  - right. right. split; [done|]. split; [done|]. split; [by exists id|].
    by rewrite (count_eviction_log is_send),
      (count_eviction_log is_connection_event),
      (count_close_log is_send), (count_close_log is_connection_event).
  - right. left. split; [done|]. split.
    + exists id, c, o. do 4 (split; [done|]). by rewrite last_app.
    + rewrite count_app.
      assert (count is_connection_event pre = 0) as ->.
      { destruct Hpre as [->|(_ & s & cb & c0 & ->)]; [done|].
        by rewrite count_eviction_log, count_close_log. }
      done.
Qed.

End Logs.

(** ** The further properties at sample inputs *)

Lemma world_A_inv cfg raises token : registry_inv cfg (world_A cfg raises token).
Proof. eapply reachable_inv, world_A_reachable. Qed.

Lemma server_path_ignores_trailing_slash_witness :
  endsWith "/myapp" "/" = false ∧
  server_path ("/myapp" +:+ "/") = server_path "/myapp".
Proof.
  split; [reflexivity|].
  apply (server_path_ignores_trailing_slash "/myapp"). reflexivity.
Defined.

Lemma live_sessions_never_exceed_ceiling_witness :
  let w := world_A tight_config false "t1" in
  reachable sample_parse tight_config true w ∧
  (size (w_realm w) = 0 ∨
   (Z.of_nat (size (w_realm w)) ≤ concurrent_limit tight_config)%Z).
Proof.
  cbn zeta. split; [apply world_A_reachable|].
  apply (live_sessions_never_exceed_ceiling sample_parse tight_config true).
  apply world_A_reachable.
Defined.

Lemma registered_session_has_identifier_and_socket_witness :
  let w := world_A sample_config false "t1" in
  reachable sample_parse sample_config true w ∧
  w_realm w !! "A" = Some 0 ∧
  "A" ≠ EmptyString ∧
  ∃ o s sk, w_clients w !! 0 = Some o ∧ c_id o = "A" ∧ c_socket o = Some s ∧
            w_sockets w !! s = Some sk ∧
            sk_on_close sk = [0] ∧ sk_on_message sk = [0].
Proof.
  cbn zeta.
  assert (w_realm (world_A sample_config false "t1") !! "A" = Some 0) as Hc
    by (vm_compute; reflexivity).
  split; [apply world_A_reachable|]. split; [exact Hc|].
  exact (registered_session_has_identifier_and_socket sample_parse sample_config
           true _ "A" 0 (world_A_reachable sample_config false "t1") Hc).
Defined.

Lemma sessions_never_share_a_socket_witness :
  let w := world_A sample_config false "t1" in
  let o := MkClient "A" "t1" (Some 1) in
  reachable sample_parse sample_config true w ∧
  w_clients w !! 0 = Some o ∧ c_socket o = Some 1 ∧ 0 = 0.
Proof.
  cbn zeta.
  assert (w_clients (world_A sample_config false "t1") !! 0 =
          Some (MkClient "A" "t1" (Some 1))) as Ho by (vm_compute; reflexivity).
  split; [apply world_A_reachable|]. do 2 (split; [done|]).
  exact (sessions_never_share_a_socket sample_parse sample_config true _ 0 0 _ _ 1
           (world_A_reachable sample_config false "t1") Ho Ho eq_refl eq_refl).
Defined.

Lemma socket_close_event_removes_its_session_only_witness :
  let w := world_A sample_config false "t1" in
  let r := handle sample_parse sample_config true (OnSocketClose 1) w in
  reachable sample_parse sample_config true w ∧
  w_clients w !! 0 = Some (MkClient "A" "t1" (Some 1)) ∧
  r.1 = Normal tt ∧
  w_realm r.2 = delete "A" (w_realm w) ∧
  appended w r.2 = [ERealm (RemoveClientById "A"); EEmit (EvClose 0)].
Proof.
  cbn zeta.
  assert (w_clients (world_A sample_config false "t1") !! 0 =
          Some (MkClient "A" "t1" (Some 1))) as Ho by (vm_compute; reflexivity).
  split; [apply world_A_reachable|]. split; [exact Ho|].
  destruct (socket_close_event_removes_its_session_only sample_parse
              sample_config true _ 1 (world_A_reachable sample_config false "t1"))
    as [Hbound _].
  destruct (Hbound 0 _ Ho eq_refl) as (H1 & H2 & _ & H3). done.
Defined.

Lemma socket_message_event_only_extends_log_witness :
  let w := world_A sample_config false "t1" in
  let r := handle sample_parse sample_config true (OnSocketMessage 1 "{}") w in
  reachable sample_parse sample_config true w ∧
  (r = (Normal tt, w) ∨
   ∃ c o, w_clients w !! c = Some o ∧
          r = (Normal tt, logged [EEmit (relayed sample_parse c (c_id o) "{}")] w)).
Proof.
  cbn zeta. split; [apply world_A_reachable|].
  apply (socket_message_event_only_extends_log sample_parse sample_config true).
  apply world_A_reachable.
Defined.

Lemma session_identity_is_immutable_witness :
  let w := world_A sample_config false "t1" in
  let e := OnConnection TS 2 false (sample_query "A" RECONNECT) "k3x9q" in
  reachable sample_parse sample_config true w ∧
  w_clients w !! 0 = Some (MkClient "A" "t1" (Some 1)) ∧
  ∃ o', w_clients (handle sample_parse sample_config true e w).2 !! 0 = Some o' ∧
        c_id o' = "A" ∧ c_token o' = "t1".
Proof.
  cbn zeta.
  assert (w_clients (world_A sample_config false "t1") !! 0 =
          Some (MkClient "A" "t1" (Some 1))) as Ho by (vm_compute; reflexivity).
  split; [apply world_A_reachable|]. split; [exact Ho|].
  exact (session_identity_is_immutable sample_parse sample_config true _
           (OnConnection TS 2 false (sample_query "A" RECONNECT) "k3x9q") 0 _
           (world_A_reachable sample_config false "t1") Ho).
Defined.

Lemma existing_session_rebinds_only_with_its_token_witness :
  let w := world_A sample_config false "t1" in
  let q := sample_query "A" "t1" in
  let r := _onSocketConnection sample_config true TS 2 q "k3x9q" w in
  registry_inv sample_config w ∧
  w_clients w !! 0 = Some (MkClient "A" "t1" (Some 1)) ∧
  Some 1 ≠ Some 2 ∧
  w_clients r.2 !! 0 = Some (MkClient "A" "t1" (Some 2)) ∧
  a_token q = Some "t1" ∧ "t1" ≠ RECONNECT ∧
  a_id q = Some "A" ∧ w_realm w !! "A" = Some 0.
Proof.
  cbn zeta.
  assert (w_clients (world_A sample_config false "t1") !! 0 =
          Some (MkClient "A" "t1" (Some 1))) as Ho by (vm_compute; reflexivity).
  assert (w_clients (_onSocketConnection sample_config true TS 2
                       (sample_query "A" "t1") "k3x9q"
                       (world_A sample_config false "t1")).2 !! 0 =
          Some (MkClient "A" "t1" (Some 2))) as Ho' by (vm_compute; reflexivity).
  assert (Some 1 ≠ Some 2) as Hne by done.
  split; [apply world_A_inv|]. do 3 (split; [done|]).
  exact (existing_session_rebinds_only_with_its_token sample_config true TS 2
           (sample_query "A" "t1") "k3x9q" 0 (MkClient "A" "t1" (Some 1))
           (MkClient "A" "t1" (Some 2)) (world_A sample_config false "t1")
           (world_A_inv _ _ _) Ho Hne Ho' eq_refl).
Defined.

Lemma attempt_is_refused_accepted_or_aborted_witness :
  let w := world_A sample_config false "t1" in
  let r := _onSocketConnection sample_config true TS 2
             (sample_query "A" "t2") "k3x9q" w in
  registry_inv sample_config w ∧
  (r.1 = close_completion w 2 ∨ r.1 = Normal tt ∨
   ∃ s, r.1 = Throw (CloseError s)).
Proof.
  cbn zeta. split; [apply world_A_inv|].
  destruct (attempt_is_refused_accepted_or_aborted sample_config true TS 2
              (sample_query "A" "t2") "k3x9q" (world_A sample_config false "t1")
              (world_A_inv _ _ _))
    as [(H & _)|[(H & _)|(H & _)]]; auto.
Defined.

Lemma open_frame_exactly_when_session_created_witness :
  let w := world_A sample_config false "t1" in
  let r := _onSocketConnection sample_config true TS 2
             (sample_query "B" "t2") "k3x9q" w in
  registry_inv sample_config w ∧
  count is_open_frame (appended w r.2) =
    length (w_clients r.2) - length (w_clients w).
Proof.
  cbn zeta. split; [apply world_A_inv|].
  apply (open_frame_exactly_when_session_created sample_config true TS 2
           (sample_query "B" "t2") "k3x9q" (world_A sample_config false "t1")).
  apply world_A_inv.
Defined.

Lemma attempt_sends_on_its_own_socket_only_witness :
  let w := world_A sample_config false "t1" in
  let r := _onSocketConnection sample_config true TS 2
             (sample_query "A" "t2") "k3x9q" w in
  registry_inv sample_config w ∧
  a_token (sample_query "A" "t2") ≠ Some RECONNECT ∧
  count is_send (appended w r.2) ≤ 1 ∧
  count (is_send_on 2) (appended w r.2) = count is_send (appended w r.2) ∧
  count (is_close_call_on 2) (appended w r.2) =
    count is_close_call (appended w r.2).
Proof.
  cbn zeta.
  assert (a_token (sample_query "A" "t2") ≠ Some RECONNECT) as Hne by done.
  split; [apply world_A_inv|]. split; [exact Hne|].
  destruct (attempt_sends_on_its_own_socket_only sample_config true TS 2
              (sample_query "A" "t2") "k3x9q" (world_A sample_config false "t1")
              (world_A_inv _ _ _)) as (H1 & H2 & _ & H3).
  split; [exact H1|]. split; [exact H2 | exact (H3 Hne)].
Defined.

Lemma register_then_close_restores_registry_witness :
  let w1 := (_registerClient sample_config 1 "B" "t2" init).2 in
  w_realm init !! "B" = None ∧
  (Z.of_nat (size (w_realm init)) < concurrent_limit sample_config)%Z ∧
  w_realm (close_listener 1 0 w1).2 = w_realm init.
Proof.
  cbn zeta.
  assert (Z.of_nat (size (w_realm init)) < concurrent_limit sample_config)%Z
    as Hroom by (vm_compute; reflexivity).
  do 2 (split; [done|]).
  apply (register_then_close_restores_registry sample_config 1 "B" "t2" init
           eq_refl Hroom).
Defined.

Lemma close_after_eviction_is_ignored_witness :
  let w := world_A sample_config false "t1" in
  let w1 := (evict true "A" 0 w).2 in
  w_clients w !! 0 = Some (MkClient "A" "t1" (Some 1)) ∧
  close_listener 1 0 w1 = (Normal tt, w1).
Proof.
  cbn zeta.
  assert (w_clients (world_A sample_config false "t1") !! 0 =
          Some (MkClient "A" "t1" (Some 1))) as Ho by (vm_compute; reflexivity).
  split; [exact Ho|].
  apply (close_after_eviction_is_ignored true 1 "A" 0 _ _ Ho).
Defined.

Lemma close_after_rebind_witness :
  let w := world_A sample_config false "t1" in
  let w1 := (_configureWS 2 0 w).2 in
  w_clients w !! 0 = Some (MkClient "A" "t1" (Some 1)) ∧ 1 ≠ 2 ∧
  close_listener 1 0 w1 = (Normal tt, w1) ∧
  w_realm (close_listener 2 0 w1).2 = delete "A" (w_realm w).
Proof.
  cbn zeta.
  assert (w_clients (world_A sample_config false "t1") !! 0 =
          Some (MkClient "A" "t1" (Some 1))) as Ho by (vm_compute; reflexivity).
  assert (1 ≠ 2) as Hne by done.
  do 2 (split; [done|]).
  destruct (close_after_rebind 1 2 0 _ _ Ho Hne) as (H1 & _ & H2 & _). done.
Defined.

Lemma rebind_leaves_previous_socket_wired_witness :
  let w := world_A sample_config false "t1" in
  let w1 := (_configureWS 2 0 w).2 in
  w_clients w !! 0 = Some (MkClient "A" "t1" (Some 1)) ∧
  w_sockets w !! 1 = Some (MkSocket false [0] [0]) ∧ 1 ≠ 2 ∧
  w_sockets w1 !! 1 = Some (MkSocket false [0] [0]) ∧
  message_listener sample_parse 1 0 "{}" w1 =
    (Normal tt, logged [EEmit (relayed sample_parse 0 "A" "{}")] w1).
Proof.
  cbn zeta.
  assert (w_clients (world_A sample_config false "t1") !! 0 =
          Some (MkClient "A" "t1" (Some 1))) as Ho by (vm_compute; reflexivity).
  assert (w_sockets (world_A sample_config false "t1") !! 1 =
          Some (MkSocket false [0] [0])) as Hsk by (vm_compute; reflexivity).
  assert (1 ≠ 2) as Hne by done.
  do 3 (split; [done|]).
  destruct (rebind_leaves_previous_socket_wired sample_parse 1 2 0 _ _ "{}" _
              Ho Hsk Hne) as (H1 & _ & H2). done.
Defined.

Lemma assign_src_last_write_wins_witness :
  let v := JObj [("src", JStr "forged"); ("foo", JNum 1)] in
  let m := JObj [("src", JStr "A"); ("foo", JNum 1)] in
  assign_src v "A" = Normal m ∧ assign_src m "B" = assign_src v "B".
Proof.
  cbn zeta. split; [reflexivity|].
  apply (assign_src_last_write_wins _ "A" "B"). reflexivity.
Defined.

Lemma assign_src_keeps_key_order_witness :
  let v := JObj [("foo", JNum 1)] in
  let m := JObj [("foo", JNum 1); ("src", JStr "A")] in
  assign_src v "A" = Normal m ∧
  (properties m).*1 =
    if decide ("src" ∈ (properties v).*1) then (properties v).*1
    else (properties v).*1 ++ ["src"].
Proof.
  cbn zeta. split; [reflexivity|].
  apply (assign_src_keeps_key_order _ "A"). reflexivity.
Defined.
